(** * nextgen-system: the task registry and its run log

  A shallow embedding of [nextgen_system/orchestration/registry.py]
  (class [TaskRegistry]) together with the two SQL statements it sends
  through [nextgen_system/persistence/database.py] ([Database.execute]).

  What the Python code reads from its environment is a parameter of the
  development: the bodies of the tasks, [json.dumps], [uuid.uuid4] and
  the wall clock behind [CURRENT_TIMESTAMP] and [datetime.utcnow]. *)

From Stdlib Require Import List String Ascii ZArith Bool Arith Lia.
From Stdlib Require Import Permutation Sorted RelationClasses DecimalString.
Import ListNotations.

Open Scope string_scope.
Open Scope list_scope.

(** ** Python values the registry handles *)

Module Py.

(** A [set] of [str].  Python sets are heap objects: the registry hands
    one set down its recursive calls and mutates it in place, so sets
    live in a store and are named by references. *)
Definition pyset := list string.
Definition ref := nat.
Definition heap := list pyset.

(** [x in s] *)
Definition contains (x : string) (s : pyset) : bool :=
  existsb (String.eqb x) s.

(** the content of [s] after [s.add(x)] *)
Definition add (x : string) (s : pyset) : pyset :=
  if contains x s then s else s ++ [x].

(** [bool(s)]: a set is falsy exactly when it is empty *)
Definition truthy (s : pyset) : bool :=
  match s with
  | [] => false
  | _ :: _ => true
  end.

Definition deref (h : heap) (a : ref) : pyset := nth a h [].

Fixpoint assign (h : heap) (a : ref) (s : pyset) : heap :=
  match h, a with
  | [], _ => []
  | _ :: h', O => s :: h'
  | s0 :: h', S a' => s0 :: assign h' a' s
  end.

(** An exception object, as far as the registry looks at it:
    [isinstance(exc, Exception)], [str(exc)] and the text
    [traceback.format_exc()] gives while it is being handled. *)
Record exception := mkException {
  is_Exception : bool;
  exc_str : string;
  exc_traceback : string
}.

(** [sorted] on a list of [str]: ascending, by code points. *)
Fixpoint insert_sorted (x : string) (l : list string) : list string :=
  match l with
  | [] => [x]
  | y :: l' => if String.leb x y then x :: l else y :: insert_sorted x l'
  end.

Fixpoint sorted (l : list string) : list string :=
  match l with
  | [] => []
  | x :: l' => insert_sorted x (sorted l')
  end.

(** The order [sorted] sorts by. *)
Definition str_le (a b : string) : Prop := String.leb a b = true.
Definition str_lt (a b : string) : Prop := String.ltb a b = true.

Definition newline : string := String "010"%char EmptyString.

End Py.

(** ** The [task_runs] table *)

Module RunStore.

Inductive Status := RUNNING | SUCCESS | FAILED.

Definition Status_eqb (a b : Status) : bool :=
  match a, b with
  | RUNNING, RUNNING | SUCCESS, SUCCESS | FAILED, FAILED => true
  | _, _ => false
  end.

(** Timestamps are microseconds since the epoch. *)
Record Row := mkRow {
  run_id : string;
  task_name : string;
  status : Status;
  triggered_at : Z;
  completed_at : option Z;
  artifacts : option string;
  error : option string
}.

Definition table := list Row.

(** SQLite's [CURRENT_TIMESTAMP] has a resolution of one second. *)
Definition CURRENT_TIMESTAMP (now : Z) : Z := (1000000 * (now / 1000000))%Z.

(** [INSERT INTO task_runs(run_id, task_name, status, triggered_at)
     VALUES (?, ?, ?, CURRENT_TIMESTAMP)], with [at_] what
     [CURRENT_TIMESTAMP] evaluates to; the other columns are NULL. *)
Definition insert_run (rid name : string) (st : Status) (at_ : Z) (t : table) : table :=
  t ++ [mkRow rid name st at_ None None None].

(** [UPDATE task_runs SET completed_at = ?, status = ?, artifacts = ?,
     error = ? WHERE run_id = ?] *)
Definition update_row (done : Z) (st : Status) (art err : option string)
    (rid : string) (r : Row) : Row :=
  if String.eqb (run_id r) rid
  then mkRow (run_id r) (task_name r) st (triggered_at r) (Some done) art err
  else r.

Definition update_run (done : Z) (st : Status) (art err : option string)
    (rid : string) (t : table) : table :=
  map (update_row done st art err rid) t.

Definition rows_of_task (name : string) (t : table) : table :=
  filter (fun r => String.eqb (task_name r) name) t.

End RunStore.

Import Py RunStore.

(** ** The environment of the registry *)

(** What the registry calls and does not define: [json.dumps] (the text, or
    the exception it raises), [uuid.uuid4().hex] at its k-th call, and the
    wall clock, in microseconds, at the k-th time the registry or the
    database looks at it. *)
Class Runtime (value : Type) := {
  json_dumps : value -> exception + string;
  uuid4_hex : nat -> string;
  wall_clock : nat -> Z
}.

(** ** The registry *)

Section Registry.

(** What a task body returns, and the state outside [task_runs] that bodies
    read and write (other tables, files, the network). *)
Context {value Ext : Type} {RT : Runtime value}.

(** How a call [task["func"]()] ends. [BodyReturns None] is a body that
    returns [None].  A body acts on the outside state only: it does not
    write [task_runs] and does not call back into the registry.  The
    arguments [run_task] passes on to the body of the task it is asked for
    are part of [func]. *)
Inductive body_outcome :=
| BodyReturns (result : option value)
| BodyRaises (exc : exception).

Record Task := mkTask {
  func : Ext -> Ext * body_outcome;
  cadence : option string;
  dependencies : list string;
  description : string
}.

(** [self._tasks]: a dict keeps its keys in insertion order, and assigning
    to a key that is present keeps the key's place. *)
Definition registry := list (string * Task).

Fixpoint dict_get (d : registry) (k : string) : option Task :=
match d with
| [] => None
| (k', v) :: d' => if String.eqb k' k then Some v else dict_get d' k
end.

Fixpoint dict_set (d : registry) (k : string) (v : Task) : registry :=
match d with
| [] => [(k, v)]
| (k', v') :: d' =>
    if String.eqb k' k then (k, v) :: d' else (k', v') :: dict_set d' k v
end.

Definition keys (d : registry) : list string := map fst d.

(** The arguments of one call of [register]. *)
Record registration := mkRegistration {
  r_name : string;
  r_func : Ext -> Ext * body_outcome;
  r_cadence : option string;
  r_dependencies : option (list string);
  r_description : string
}.

Definition register (reg : registry) (r : registration) : registry :=
dict_set reg (r_name r)
  (mkTask (r_func r) (r_cadence r)
     (match r_dependencies r with Some l => l | None => [] end)
     (r_description r)).

(** A registry is built by calls of [register] on [TaskRegistry()]. *)
Definition register_all (rs : list registration) (reg : registry) : registry :=
fold_left register rs reg.

Definition list_tasks (reg : registry) : list string := sorted (keys reg).

Definition get (reg : registry) (name : string) : option Task :=
dict_get reg name.

(** *** What the registry does to the world *)

(** The statements sent to the database and the calls of task bodies, in
    the order they happen. *)
Inductive event :=
| SqlInsert (rid name : string) (st : Status) (at_ : Z)
| BodyCall (name : string) (res : body_outcome)
| SqlUpdate (done : Z) (st : Status) (art err : option string) (rid : string).

Record World := mkWorld {
  task_runs : table;
  ext : Ext;
  sets : heap;
  uuid_calls : nat;
  clock_reads : nat;
  log : list event
}.

Inductive raised :=
| KeyError (msg : string)
| RuntimeError (msg : string)
| Uncaught (exc : exception).

Inductive outcome :=
| Returned (rid : string)
| Raised (e : raised).

(** [set()] *)
Definition new_set (w : World) : ref * World :=
(List.length (sets w),
 mkWorld (task_runs w) (ext w) (sets w ++ [[]]) (uuid_calls w)
         (clock_reads w) (log w)).

(** [_executed = _executed or set()] *)
Definition or_new_set (executed : option ref) (w : World) : ref * World :=
match executed with
| None => new_set w
| Some a => if truthy (deref (sets w) a) then (a, w) else new_set w
end.

(** [_executed.add(name)] *)
Definition set_add (e : ref) (name : string) (w : World) : World :=
mkWorld (task_runs w) (ext w)
        (assign (sets w) e (add name (deref (sets w) e)))
        (uuid_calls w) (clock_reads w) (log w).

Definition db_insert (rid name : string) (w : World) : World :=
let at_ := CURRENT_TIMESTAMP (wall_clock (clock_reads w)) in
mkWorld (insert_run rid name RUNNING at_ (task_runs w)) (ext w) (sets w)
        (uuid_calls w) (S (clock_reads w))
        (log w ++ [SqlInsert rid name RUNNING at_]).

(** The [UPDATE] of the [finally] clause; [datetime.utcnow()] is read when
    its parameters are built. *)
Definition db_update (st : Status) (art err : option string) (rid : string)
    (w : World) : World :=
let now := wall_clock (clock_reads w) in
mkWorld (update_run now st art err rid (task_runs w)) (ext w) (sets w)
        (uuid_calls w) (S (clock_reads w))
        (log w ++ [SqlUpdate now st art err rid]).

Definition call_body (name : string) (task : Task) (w : World)
    : body_outcome * World :=
let '(x, res) := func task (ext w) in
(res, mkWorld (task_runs w) x (sets w) (uuid_calls w) (clock_reads w)
              (log w ++ [BodyCall name res])).

Definition draw_uuid (w : World) : string * World :=
(uuid4_hex (uuid_calls w),
 mkWorld (task_runs w) (ext w) (sets w) (S (uuid_calls w))
         (clock_reads w) (log w)).

(** The values of [status], [artifacts], [error] when the [finally] clause
    is entered, and the exception still in flight, if any. *)
Record locals := mkLocals {
  l_status : Status;
  l_artifacts : option string;
  l_error : option string;
  l_pending : option exception
}.

(** [except Exception as exc:] catches [exc] only if it is an [Exception];
    otherwise the locals keep their initial values and [exc] stays in
    flight. *)
Definition except_clause (exc : exception) : locals :=
if is_Exception exc
then mkLocals FAILED None
       (Some (exc_str exc ++ newline ++ exc_traceback exc)%string) None
else mkLocals SUCCESS None None (Some exc).

(** The [try] clause, from what the call of the body gave: [json.dumps]
    is called inside it. *)
Definition try_clause (res : body_outcome) : locals :=
match res with
| BodyRaises exc => except_clause exc
| BodyReturns None => mkLocals SUCCESS None None None
| BodyReturns (Some v) =>
    match json_dumps v with
    | inr text => mkLocals SUCCESS (Some text) None None
    | inl exc => except_clause exc
    end
end.

Definition failed_message (name rid : string) : string :=
("Task " ++ name ++ " failed; run_id=" ++ rid)%string.

Definition unknown_message (name : string) : string :=
("Unknown task: " ++ name)%string.

(** Lines 53 to 87 of [registry.py]: everything after the loop over the
    dependencies. [e] is the set [_executed] is bound to. *)
Definition run_body (name : string) (task : Task) (e : ref) (w : World)
    : outcome * World :=
let '(rid, w1) := draw_uuid w in
let w2 := db_insert rid name w1 in
let '(res, w3) := call_body name task w2 in
let l := try_clause res in
let w4 := db_update (l_status l) (l_artifacts l) (l_error l) rid w3 in
match l_pending l with
| Some exc => (Raised (Uncaught exc), w4)
| None =>
    if Status_eqb (l_status l) FAILED
    then (Raised (RuntimeError (failed_message name rid)), w4)
    else (Returned rid, set_add e name w4)
end.

(** [for dep in task["dependencies"]: self.run_task(dep, _executed=_executed)]
    where [call] is [self.run_task]; the value a call returns is dropped,
    an exception ends the loop. [None] is a call that did not finish. *)
Fixpoint for_each_dep
    (call : string -> option ref -> World -> option (outcome * World))
    (deps : list string) (e : ref) (w : World)
    : option (option raised * World) :=
match deps with
| [] => Some (None, w)
| dep :: rest =>
    match call dep (Some e) w with
    | None => None
    | Some (Raised x, w') => Some (Some x, w')
    | Some (Returned _, w') => for_each_dep call rest e w'
    end
end.

(** [TaskRegistry.run_task].  [fuel] bounds the depth of the recursion;
    [None] is a call that needs more. *)
Fixpoint run_task (fuel : nat) (reg : registry) (name : string)
    (executed : option ref) (w : World) : option (outcome * World) :=
match fuel with
| O => None
| S fuel' =>
    let '(e, w0) := or_new_set executed w in
    if contains name (deref (sets w0) e) then Some (Returned "", w0)
    else
      match dict_get reg name with
      | None => Some (Raised (KeyError (unknown_message name)), w0)
      | Some task =>
          match for_each_dep (run_task fuel' reg) (dependencies task) e w0 with
          | None => None
          | Some (Some x, w1) => Some (Raised x, w1)
          | Some (None, w1) => Some (run_body name task e w1)
          end
      end
end.

(** *** The shape of a run *)

(** One execution of a task: the name, the run identifier drawn for it,
    which reading of the clock its [INSERT] took, and how the call of its
    body ended. *)
Record execution := mkExecution {
  x_name : string;
  x_run_id : string;
  x_clock : nat;
  x_result : body_outcome
}.

(** The three events of an execution: the record is inserted, the body is
    called, the record is updated with the next reading of the clock. *)
Definition execution_events (x : execution) : list event :=
let l := try_clause (x_result x) in
[ SqlInsert (x_run_id x) (x_name x) RUNNING
            (CURRENT_TIMESTAMP (wall_clock (x_clock x)));
  BodyCall (x_name x) (x_result x);
  SqlUpdate (wall_clock (S (x_clock x))) (l_status l) (l_artifacts l)
            (l_error l) (x_run_id x) ].

Definition events_of (xs : list execution) : list event :=
flat_map execution_events xs.

(** How [run_task] ends after the three events of [x]. *)
Definition execution_outcome (x : execution) : outcome :=
let l := try_clause (x_result x) in
match l_pending l with
| Some exc => Raised (Uncaught exc)
| None =>
    if Status_eqb (l_status l) FAILED
    then Raised (RuntimeError (failed_message (x_name x) (x_run_id x)))
    else Returned (x_run_id x)
end.

(** The record of [x] once it is updated. *)
Definition execution_row (x : execution) : Row :=
let l := try_clause (x_result x) in
mkRow (x_run_id x) (x_name x) (l_status l)
      (CURRENT_TIMESTAMP (wall_clock (x_clock x)))
      (Some (wall_clock (S (x_clock x)))) (l_artifacts l) (l_error l).

(** The execution [run_body name task] goes through from [w]. *)
Definition execution_at (name : string) (task : Task) (w : World) : execution :=
mkExecution name (uuid4_hex (uuid_calls w)) (clock_reads w)
            (snd (func task (ext w))).

(** The executions a call [run_task(name)], or a loop over dependencies,
    goes through, and how it ends. *)
Inductive call_trace (reg : registry) : string -> list execution -> outcome -> Prop :=
| ct_skip name :
    call_trace reg name [] (Returned "")
| ct_unknown name :
    dict_get reg name = None ->
    call_trace reg name [] (Raised (KeyError (unknown_message name)))
| ct_dep_raised name task xs e :
    dict_get reg name = Some task ->
    loop_trace reg (dependencies task) xs (Some e) ->
    call_trace reg name xs (Raised e)
| ct_ran name task xs x :
    dict_get reg name = Some task ->
    loop_trace reg (dependencies task) xs None ->
    x_name x = name ->
    call_trace reg name (xs ++ [x]) (execution_outcome x)
with loop_trace (reg : registry) : list string -> list execution -> option raised -> Prop :=
| lt_done :
    loop_trace reg [] [] None
| lt_raised dep rest xs e :
    call_trace reg dep xs (Raised e) ->
    loop_trace reg (dep :: rest) xs (Some e)
| lt_next dep rest xs rid xs' r :
    call_trace reg dep xs (Returned rid) ->
    loop_trace reg rest xs' r ->
    loop_trace reg (dep :: rest) (xs ++ xs') r.

(** The names in the set a call is given: none when it is given no set. *)
Definition given_set (executed : option ref) (w : World) : pyset :=
match executed with
| None => []
| Some a => deref (sets w) a
end.

(** What the call for the dependency [dep] leaves behind when it executes
    [dep]: a segment of executions that ends with the execution of [dep]
    itself, which succeeded. *)
Definition ran_segment (dep : string) (seg : list execution) : Prop :=
exists before x, seg = before ++ [x] /\ x_name x = dep /\
  execution_outcome x = Returned (x_run_id x).

(** What the loop over the dependencies [deps] leaves behind when it runs
    to its end, [held] being the names in the set [_executed] is bound to
    when the loop starts: one segment for each dependency, in order, empty
    exactly when the dependency is in the set by then, a [ran_segment]
    otherwise.  A set that holds names takes the names the segment
    executed; an empty one is empty again for the next dependency. *)
Fixpoint segments (held : pyset) (deps : list string)
    (segs : list (list execution)) : Prop :=
match deps, segs with
| [], [] => True
| dep :: deps', seg :: segs' =>
    (if contains dep held then seg = [] else ran_segment dep seg) /\
    segments (if truthy held then held ++ map x_name seg else held) deps' segs'
| _, _ => False
end.

(** The table after the statements of a log. *)
Definition replay_event (t : table) (ev : event) : table :=
match ev with
| SqlInsert rid name st at_ => insert_run rid name st at_ t
| BodyCall _ _ => t
| SqlUpdate done st art err rid => update_run done st art err rid t
end.

Definition replay (evs : list event) (t : table) : table :=
fold_left replay_event evs t.

(** Identifiers and readings of the clock are drawn in order. *)
Fixpoint numbered (u k : nat) (xs : list execution) : Prop :=
match xs with
| [] => True
| x :: xs' =>
    x_run_id x = uuid4_hex u /\ x_clock x = k /\ numbered (S u) (S (S k)) xs'
end.

(** From [w] to [w'] the registry went through the executions [xs], and
    did nothing else to the log, the table, and the counters. *)
Definition follows (w : World) (xs : list execution) (w' : World) : Prop :=
log w' = log w ++ events_of xs /\
task_runs w' = replay (events_of xs) (task_runs w) /\
numbered (uuid_calls w) (clock_reads w) xs /\
uuid_calls w' = uuid_calls w + List.length xs /\
clock_reads w' = clock_reads w + 2 * List.length xs.


(** What [json.dumps] leaves in [artifacts] for what a body returned. *)
Definition serialized (result : option value) (art : option string) : Prop :=
match result with
| None => art = None
| Some v => exists text, json_dumps v = inr text /\ art = Some text
end.

(** How often the body of [name] is called in a log. *)
Definition body_calls (name : string) (evs : list event) : nat :=
List.length (filter (fun ev => match ev with
                               | BodyCall n _ => String.eqb n name
                               | _ => false
                               end) evs).

(** The dependency graph has no cycle: a rank decreases along it. *)
Definition well_ranked (reg : registry) (rank : string -> nat) : Prop :=
forall name task, dict_get reg name = Some task ->
  forall dep, In dep (dependencies task) -> rank dep < rank name.

(** A test for it. *)
Definition check_ranked (reg : registry) (rank : string -> nat) : bool :=
forallb (fun kv => forallb (fun dep => Nat.ltb (rank dep) (rank (fst kv)))
                           (dependencies (snd kv))) reg.

(** The clock never steps back. *)
Definition clock_monotone : Prop :=
forall i j, i <= j -> (wall_clock i <= wall_clock j)%Z.

(** The rows of [w'] that were not there in [w]. *)
Definition rows_since (w w' : World) : table :=
skipn (List.length (task_runs w)) (task_runs w').



End Registry.

Arguments body_outcome value : clear implicits.
Arguments Task value Ext : clear implicits.
Arguments registry value Ext : clear implicits.
Arguments registration value Ext : clear implicits.
Arguments event value : clear implicits.
Arguments World value Ext : clear implicits.
Arguments execution value : clear implicits.

Scheme call_trace_mut := Minimality for call_trace Sort Prop
  with loop_trace_mut := Minimality for loop_trace Sort Prop.
Combined Scheme call_loop_trace_ind from call_trace_mut, loop_trace_mut.

(** ** The scenarios of the specification, on a concrete environment *)

Module Scenario.

(** Bodies return a dict from names to integers, or an object that
    [json.dumps] refuses. *)
Inductive value :=
| Dict (items : list (string * Z))
| Object.

Definition quote : string := String "034"%char EmptyString.

Definition dumps_int (n : Z) : string := NilZero.string_of_int (Z.to_int n).

Definition dumps_item (kv : string * Z) : string :=
(quote ++ fst kv ++ quote ++ ": " ++ dumps_int (snd kv))%string.

(** [json.dumps] on such a dict, whose keys are plain ASCII. *)
Definition dumps (v : value) : exception + string :=
match v with
| Dict items => inr ("{" ++ String.concat ", " (map dumps_item items) ++ "}")%string
| Object =>
    inl (mkException true "Object of type set is not JSON serializable"
                     "TypeError")
end.

(** Run identifiers: pairwise distinct texts. *)
Fixpoint hex (k : nat) : string :=
match k with
| O => "0"
| S k' => String "f"%char (hex k')
end.

(** A clock that advances by a second and a half between two readings. *)
Definition clock (k : nat) : Z := (Z.of_nat k * 1500000)%Z.

#[export] Instance runtime : Runtime value := {|
  json_dumps := dumps;
  uuid4_hex := hex;
  wall_clock := clock
|}.

(** The outside world of the bodies: how many of them have been called. *)
Definition Ext := nat.

Definition returns (v : option value) : Ext -> Ext * body_outcome value :=
fun x => (S x, BodyReturns v).

Definition raises (e : exception) : Ext -> Ext * body_outcome value :=
fun x => (S x, BodyRaises e).

Definition boom : exception :=
mkException true "boom" "Traceback (most recent call last): RuntimeError: boom".


Definition task (name : string) (f : Ext -> Ext * body_outcome value)
    (deps : list string) : registration value Ext :=
mkRegistration name f None (Some deps) "".

Definition world0 : World value Ext := mkWorld [] O [] O O [].

Definition scenario_A : registry value Ext :=
register_all [ task "base" (returns (Some (Dict [("n", 1%Z)]))) [] ] [].

Definition scenario_B : registry value Ext :=
register_all [ task "base" (raises boom) [];
               task "dependent" (returns None) ["base"] ] [].

Definition scenario_C : registry value Ext :=
register_all [ task "shared" (returns None) [];
               task "a" (returns None) ["shared"];
               task "b" (returns None) ["shared"];
               task "root" (returns None) ["a"; "b"] ] [].

(** A body that returns a set, and a body interrupted from the keyboard. *)
Definition unserializable : registry value Ext :=
register_all [ task "report" (returns (Some Object)) [] ] [].


Definition base_task : Task value Ext :=
mkTask (returns (Some (Dict [("n", 1%Z)]))) None [] "".

Definition root_task : Task value Ext :=
mkTask (returns None) None ["a"; "b"] "".


(** A world in which a set holding "base" has been built. *)
Definition world_base_done : World value Ext :=
mkWorld [] O [["base"]] O O [].

(** The text [json.dumps] gives for the dict of scenario A. *)
Definition n_is_1 : string := ("{" ++ quote ++ "n" ++ quote ++ ": 1}")%string.

Definition depth (name : string) : nat :=
if String.eqb name "root" then 2
else if String.eqb name "a" then 1
else if String.eqb name "b" then 1
else if String.eqb name "dependent" then 1
else 0.

End Scenario.


(** ** More about runs *)

Section Chains.

Context {value Ext : Type} {RT : Runtime value}.

(** The names [run_task] goes through when nothing is skipped: the trees
    of the dependencies, in the order they are declared, then the task
    itself; [fuel] bounds the depth. *)
Fixpoint expansion (fuel : nat) (reg : registry value Ext) (name : string)
    : list string :=
match fuel with
| O => []
| S fuel' =>
    match dict_get reg name with
    | None => []
    | Some task => flat_map (expansion fuel' reg) (dependencies task) ++ [name]
    end
end.

(** [l] is the beginning of [l']. *)
Definition prefix_of (l l' : list string) : Prop := exists rest, l' = l ++ rest.

(** The execution ended without an exception. *)
Definition succeeded (x : execution value) : bool :=
match execution_outcome x with
| Returned _ => true
| Raised _ => false
end.

(** The executions [xs] are calls of the registered bodies, each on the
    outside state the one before left, from [s] to [s']. *)
Fixpoint threaded (reg : registry value Ext) (s : Ext)
    (xs : list (execution value)) (s' : Ext) : Prop :=
match xs with
| [] => s' = s
| x :: xs' =>
    exists task, dict_get reg (x_name x) = Some task /\
      x_result x = snd (func task s) /\
      threaded reg (fst (func task s)) xs' s'
end.

(** [b] is declared as a dependency of the registered task [a]. *)
Definition depends (reg : registry value Ext) (a b : string) : Prop :=
exists task, dict_get reg a = Some task /\ In b (dependencies task).

(** [a] reaches [b] along dependencies, in one step or more. *)
Inductive reaches (reg : registry value Ext) : string -> string -> Prop :=
| reaches_step a b : depends reg a b -> reaches reg a b
| reaches_more a b c : depends reg a b -> reaches reg b c -> reaches reg a c.

(** No identifier still to be drawn is in the table. *)
Definition ids_fresh (w : World value Ext) : Prop :=
forall k, uuid_calls w <= k -> ~ In (uuid4_hex k) (map run_id (task_runs w)).

(** The set [_executed] is [None] or empty. *)
Definition no_set_yet (executed : option ref) (w : World value Ext) : Prop :=
match executed with
| None => True
| Some a => deref (sets w) a = []
end.

End Chains.

(** ** The command line: [orchestration/cli.py] and [orchestration/tasks.py] *)

Section Cli.

Context {value Ext : Type} {RT : Runtime value}.

(** What is written to the standard output: a line of text, or the JSON
    text of an object whose values are texts. *)
Inductive printed :=
| Line (text : string)
| JsonObject (fields : list (string * string)).

(** The loop of [cli.list_tasks] over [names]: [registry.get] raises
    [KeyError] for a name that is not a key; what was printed before is
    printed. *)
Fixpoint print_tasks (reg : registry value Ext) (names : list string)
    : list printed * option raised :=
match names with
| [] => ([], None)
| name :: rest =>
    match get reg name with
    | None => ([], Some (KeyError name))
    | Some meta =>
        let '(out, exc) := print_tasks reg rest in
        (Line (name ++ ": " ++ description meta)%string :: out, exc)
    end
end.

(** [cli.list_tasks] *)
Definition cli_list_tasks (reg : registry value Ext) : list printed * option raised :=
print_tasks reg (list_tasks reg).

(** [cli.run_task]: [registry.run_task(name)], then the identifier is
    printed; an exception of [run_task] is not caught. *)
Definition cli_run_task (fuel : nat) (reg : registry value Ext) (name : string)
    (w : World value Ext)
    : option (list printed * option raised * World value Ext) :=
match run_task fuel reg name None w with
| None => None
| Some (Returned rid, w') =>
    Some ([JsonObject [("task", name); ("run_id", rid)]], None, w')
| Some (Raised e, w') => Some ([], Some e, w')
end.

(** The bodies [tasks.register_tasks] registers: the functions of the
    services they call are not part of the registry. *)
Record bodies := mkBodies {
  run_market_ingestion : Ext -> Ext * body_outcome value;
  run_news_ingestion : Ext -> Ext * body_outcome value;
  refresh_universe : Ext -> Ext * body_outcome value;
  run_feature_build : Ext -> Ext * body_outcome value;
  run_predictions : Ext -> Ext * body_outcome value;
  run_validation : Ext -> Ext * body_outcome value;
  run_feedback : Ext -> Ext * body_outcome value;
  run_trading : Ext -> Ext * body_outcome value
}.

(** [tasks.register_tasks]: eight calls of [registry.register], none with
    a cadence, "build_ticker_universe" without dependencies. *)
Definition register_tasks (b : bodies) (reg : registry value Ext)
    : registry value Ext :=
register_all
  [ mkRegistration "ingest_market_daily" (run_market_ingestion b) None
      (Some ["build_ticker_universe"]) "Fetch OHLCV data for universe tickers";
    mkRegistration "ingest_news_hourly" (run_news_ingestion b) None
      (Some ["build_ticker_universe"]) "Collect news and sentiment";
    mkRegistration "build_ticker_universe" (refresh_universe b) None
      None "Refresh dynamic ticker universe";
    mkRegistration "build_features_daily" (run_feature_build b) None
      (Some ["ingest_market_daily"; "ingest_news_hourly"])
      "Generate feature windows for prediction";
    mkRegistration "run_predictions_daily" (run_predictions b) None
      (Some ["build_features_daily"]) "Run model inference across universe";
    mkRegistration "validate_predictions_daily" (run_validation b) None
      (Some ["run_predictions_daily"])
      "Validate predictions against market outcomes";
    mkRegistration "feedback_daily" (run_feedback b) None
      (Some ["validate_predictions_daily"])
      "Update feedback metrics and retrain signals";
    mkRegistration "trading_cycle_intraday" (run_trading b) None
      (Some ["feedback_daily"])
      "Execute trading cycle with philosophical reasoning" ]
  reg.

(** [cli.build_registry] *)
Definition build_registry (b : bodies) : registry value Ext :=
register_tasks b [].

(** How far a task of [register_tasks] is from the tasks without
    dependencies. *)
Definition pipeline_rank (name : string) : nat :=
if String.eqb name "trading_cycle_intraday" then 6
else if String.eqb name "feedback_daily" then 5
else if String.eqb name "validate_predictions_daily" then 4
else if String.eqb name "run_predictions_daily" then 3
else if String.eqb name "build_features_daily" then 2
else if String.eqb name "ingest_market_daily" then 1
else if String.eqb name "ingest_news_hourly" then 1
else 0.

(** Every declared dependency is registered: a test for it. *)
Definition check_closed (reg : registry value Ext) : bool :=
forallb (fun kv => forallb (fun dep => contains dep (keys reg))
                           (dependencies (snd kv))) reg.

End Cli.

Arguments bodies value Ext : clear implicits.

(** ** Configuration: [config/settings.py] *)

Module Settings.

Section Config.

(** Values that are neither [None] nor a dict: texts, numbers, lists. *)
Variable leaf : Type.

(** What a configuration holds.  A dict keeps its keys in insertion
    order. *)
#[local] Set Warnings "-register-all".
Inductive cfg :=
| CNone
| CLeaf (a : leaf)
| CDict (items : list (string * cfg)).

Definition items := list (string * cfg).

(** [d.get(k)], with [None] of the option for a key that is absent. *)
Fixpoint lookup (d : items) (k : string) : option cfg :=
match d with
| [] => None
| (k', v) :: d' => if String.eqb k' k then Some v else lookup d' k
end.

(** [d[k] = v] *)
Fixpoint store (d : items) (k : string) (v : cfg) : items :=
match d with
| [] => [(k, v)]
| (k', v') :: d' =>
    if String.eqb k' k then (k, v) :: d' else (k', v') :: store d' k v
end.

(** What [_deep_merge] stores under a key whose value in [result] is
    [old] ([None] of the option when the key is absent) and whose value
    in [override] is [v]: the merge of the two when both are dicts, [v]
    otherwise.  The inner loop is the loop of [_deep_merge] itself. *)
Fixpoint merge_value (old : option cfg) (v : cfg) {struct v} : cfg :=
match old, v with
| Some (CDict base), CDict override =>
    CDict ((fix loop (result : items) (o : items) {struct o} : items :=
              match o with
              | [] => result
              | (key, value) :: rest =>
                  loop (store result key (merge_value (lookup result key) value))
                       rest
              end) base override)
| _, _ => v
end.

(** One turn of the loop of [_deep_merge]. *)
Definition merge_item (result : items) (kv : string * cfg) : items :=
store result (fst kv) (merge_value (lookup result (fst kv)) (snd kv)).

(** [_deep_merge(base, override)] *)
Definition deep_merge (base override : items) : items :=
fold_left merge_item override base.

(** The loop of [Settings.get] from [node] on. *)
Fixpoint get_from (node : cfg) (keys : list string) (default : cfg) : cfg :=
match keys with
| [] => node
| key :: rest =>
    match node with
    | CDict d =>
        match lookup d key with
        | None | Some CNone => default
        | Some v => get_from v rest default
        end
    | _ => default
    end
end.

(** [Settings.get], with the keys it is given as a list, on
    [Settings(data)] *)
Definition get (data : items) (keys : list string) (default : cfg) : cfg :=
get_from (CDict data) keys default.

(** [Settings.replace], with its keyword arguments as a dict: the data
    of the new settings.  The method names its first parameter [self], so
    a keyword argument of that name is refused with a [TypeError] before
    the body runs: that is [None] here. *)
Definition replace (data updates : items) : option items :=
if existsb (String.eqb "self") (map fst updates) then None
else Some (deep_merge data updates).

(** The keys of every dict of a value are pairwise distinct, as they are
    in Python. *)
Fixpoint well_formed (v : cfg) : Prop :=
match v with
| CDict d =>
    NoDup (map fst d) /\
    (fix all (d : items) : Prop :=
       match d with
       | [] => True
       | (_, v') :: d' => well_formed v' /\ all d'
       end) d
| _ => True
end.

(** A value that ends a path: not [None] and not a dict. *)
Definition is_leaf (v : cfg) : Prop := exists a, v = CLeaf a.

End Config.

Arguments CNone {leaf}.
Arguments CLeaf {leaf} a.
Arguments CDict {leaf} items.
Arguments lookup {leaf} d k.
Arguments store {leaf} d k v.
Arguments merge_value {leaf} old v.
Arguments merge_item {leaf} result kv.
Arguments deep_merge {leaf} base override.
Arguments get_from {leaf} node keys default.
Arguments get {leaf} data keys default.
Arguments replace {leaf} data updates.
Arguments well_formed {leaf} v.
Arguments is_leaf {leaf} v.

End Settings.

(** ** The dashboard reads the table: [dashboard/repository.py] *)

Module Dashboard.

(** [ORDER BY triggered_at DESC].  The order SQLite gives rows of equal
    [triggered_at] is not fixed; here they stay in the order of the
    table, and nothing proved below depends on it. *)
Fixpoint insert_desc (r : Row) (l : table) : table :=
match l with
| [] => [r]
| r' :: l' =>
    if (triggered_at r' <=? triggered_at r)%Z then r :: l
    else r' :: insert_desc r l'
end.

Definition order_by_triggered_at_desc (t : table) : table :=
fold_right insert_desc [] t.

(** [a] was triggered no earlier than [b]. *)
Definition later_first (a b : Row) : Prop := (triggered_at b <= triggered_at a)%Z.

(** A Python [int] bound to a parameter of a statement has to fit a
    64-bit SQLite INTEGER; [sqlite3] raises [OverflowError] otherwise,
    which is [None] here. *)
Definition bind_integer (n : Z) : option Z :=
if ((- 2 ^ 63 <=? n) && (n <? 2 ^ 63))%Z then Some n else None.

(** [LIMIT ?]: a negative limit is no limit. *)
Definition limit_rows (limit : Z) (t : table) : table :=
if (limit <? 0)%Z then t else firstn (Z.to_nat limit) t.

(** [fetch_latest_task_runs(limit)]: the dicts it builds have the seven
    columns of a row; [None] is the [OverflowError] of a limit that
    cannot be bound. *)
Definition fetch_latest_task_runs (limit : Z) (t : table) : option table :=
match bind_integer limit with
| None => None
| Some n => Some (limit_rows n (order_by_triggered_at_desc t))
end.

End Dashboard.

(** ** Migrations: [persistence/migrator.py] *)

Module Migrator.

Section Migrations.

(** The database apart from the table [schema_migrations]. *)
Variable S : Type.

Inductive error :=
| ScriptError (message : string)
| IntegrityError.

(** A file of the migrations directory: its stem, its name, and what
    running it does to the database ([executescript] for a [.sql] file,
    the function [upgrade] of the module for a [.py] file), with the
    exception it ends in, if any.  A migration does not write
    [schema_migrations]. *)
Record migration := mkMigration {
  mig_id : string;
  mig_name : string;
  run : S -> S * option string
}.

(** [schema_migrations] has [id] as its primary key; the rows are kept
    as (id, description). *)
Record Db := mkDb {
  schema_migrations : list (string * string);
  data : S
}.

Definition mem (k : string) (l : list string) : bool :=
existsb (String.eqb k) l.

(** The loop of [upgrade] over the files: [applied] is the set read
    before the loop, and it is not read again.  An exception ends the
    loop; what was done before it stays, the connection being in
    autocommit mode. *)
Fixpoint upgrade_loop (applied : list string) (files : list migration)
    (db : Db) : Db * option error :=
match files with
| [] => (db, None)
| m :: rest =>
    if mem (mig_id m) applied then upgrade_loop applied rest db
    else
      let '(s, exc) := run m (data db) in
      match exc with
      | Some message => (mkDb (schema_migrations db) s, Some (ScriptError message))
      | None =>
          if mem (mig_id m) (map fst (schema_migrations db))
          then (mkDb (schema_migrations db) s, Some IntegrityError)
          else upgrade_loop applied rest
                 (mkDb (schema_migrations db ++ [(mig_id m, mig_name m)]) s)
      end
end.

(** [upgrade()], on the files [_list_migration_files] gives. *)
Definition upgrade (files : list migration) (db : Db) : Db * option error :=
upgrade_loop (map fst (schema_migrations db)) files db.

(** The row [upgrade] inserts for a migration. *)
Definition entry (m : migration) : string * string := (mig_id m, mig_name m).

(** The migrations of [files] that are not applied, in order. *)
Definition pending (applied : list string) (files : list migration)
    : list migration :=
filter (fun m => negb (mem (mig_id m) applied)) files.

(** Running migrations one after the other, while none raises. *)
Fixpoint run_all (ms : list migration) (s : S) : S * option string :=
match ms with
| [] => (s, None)
| m :: rest =>
    let '(s', exc) := run m s in
    match exc with
    | Some message => (s', Some message)
    | None => run_all rest s'
    end
end.

(** The migrations of [ms] that run to their end, one after the other
    from [s], before the first that raises. *)
Fixpoint completed (ms : list migration) (s : S) : list migration :=
match ms with
| [] => []
| m :: rest =>
    let '(s', exc) := run m s in
    match exc with
    | Some _ => []
    | None => m :: completed rest s'
    end
end.

End Migrations.

Arguments mkMigration {S} mig_id mig_name run.
Arguments mig_id {S} m.
Arguments mig_name {S} m.
Arguments run {S} m s.
Arguments mkDb {S} schema_migrations data.
Arguments schema_migrations {S} d.
Arguments data {S} d.
Arguments upgrade_loop {S} applied files db.
Arguments upgrade {S} files db.
Arguments entry {S} m.
Arguments pending {S} applied files.
Arguments run_all {S} ms s.
Arguments completed {S} ms s.

End Migrator.

(** ** More examples *)

Module Examples.

Import Scenario.

(** A world in which a set holding "seed" has been built. *)
Definition world_seeded : World value Ext :=
mkWorld [] O [["seed"]] O O [].







(** Settings whose leaves are texts. *)
Definition base_settings : Settings.items string :=
[ ("paths", Settings.CDict [ ("db_path", Settings.CLeaf "data/nextgen.db");
                             ("data_dir", Settings.CLeaf "data") ]);
  ("profile", Settings.CLeaf "defaults") ].

Definition override_settings : Settings.items string :=
[ ("paths", Settings.CDict [ ("db_path", Settings.CLeaf "/tmp/nextgen.db") ]);
  ("profile", Settings.CNone) ].

(** Migrations that note their names in the database. *)
Definition notes (name : string) : list string -> list string * option string :=
fun s => (s ++ [name], None).

Definition m_init_sql : Migrator.migration (list string) :=
Migrator.mkMigration "001_init" "001_init.sql" (notes "001_init.sql").

Definition m_runs_sql : Migrator.migration (list string) :=
Migrator.mkMigration "002_runs" "002_runs.sql" (notes "002_runs.sql").

Definition m_init_py : Migrator.migration (list string) :=
Migrator.mkMigration "001_init" "001_init.py" (notes "001_init.py").

(** A script that raises after its first statement. *)
Definition m_broken_sql : Migrator.migration (list string) :=
Migrator.mkMigration "002_broken" "002_broken.sql"
  (fun s => (s ++ ["002_broken.sql, first statement"],
             Some "near FORM: syntax error")).

Definition m_later_sql : Migrator.migration (list string) :=
Migrator.mkMigration "003_later" "003_later.sql" (notes "003_later.sql").

Definition empty_db : Migrator.Db (list string) := Migrator.mkDb [] [].

Definition migrated_db : Migrator.Db (list string) :=
Migrator.mkDb [("001_init", "001_init.sql"); ("002_runs", "002_runs.sql")]
              ["001_init.sql"; "002_runs.sql"].

End Examples.

(** * Properties *)

(** ** Sets and references *)

Lemma contains_In (x : string) (s : pyset) :
  contains x s = true <-> In x s.
Proof.
  unfold contains. rewrite existsb_exists. split.
  - intros [y [Hy Heq]]. apply String.eqb_eq in Heq. now subst.
  - intros H. exists x. split; [assumption | apply String.eqb_refl].
Qed.

Lemma contains_truthy (x : string) (s : pyset) :
  contains x s = true -> truthy s = true.
Proof. destruct s; [discriminate | reflexivity]. Qed.

Lemma contains_add (x : string) (s : pyset) : contains x (add x s) = true.
Proof.
  unfold add. destruct (contains x s) eqn:E; [assumption |].
  apply contains_In, in_or_app. right. now left.
Qed.

Lemma deref_assign_same (h : heap) (a : ref) (s : pyset) :
  a < List.length h -> deref (assign h a s) a = s.
Proof.
  unfold deref. revert a. induction h as [| s0 h IH]; intros [| a] Hlt;
    simpl in *; try lia; [reflexivity |]. apply IH. lia.
Qed.

Lemma length_assign (h : heap) (a : ref) (s : pyset) :
  List.length (assign h a s) = List.length h.
Proof.
  revert a. induction h as [| s0 h IH]; intros [| a]; simpl; auto.
Qed.

Lemma truthy_deref_valid (h : heap) (a : ref) :
  truthy (deref h a) = true -> a < List.length h.
Proof.
  unfold deref. intros H. destruct (Nat.lt_ge_cases a (List.length h)) as [|Hge];
    [assumption |]. rewrite nth_overflow in H by assumption. discriminate.
Qed.

(** ** The order on names *)

Lemma ascii_compare_refl (a : ascii) : Ascii.compare a a = Eq.
Proof. unfold Ascii.compare. apply N.compare_refl. Qed.

Lemma compare_refl (s : string) : String.compare s s = Eq.
Proof.
  induction s as [| a s IH]; simpl; [reflexivity |].
  now rewrite ascii_compare_refl.
Qed.

Lemma ascii_compare_lt_trans (a b c : ascii) :
  Ascii.compare a b = Lt -> Ascii.compare b c = Lt -> Ascii.compare a c = Lt.
Proof.
  unfold Ascii.compare. rewrite !N.compare_lt_iff. apply N.lt_trans.
Qed.

Lemma compare_lt_trans (s1 : string) :
  forall s2 s3, String.compare s1 s2 = Lt -> String.compare s2 s3 = Lt ->
    String.compare s1 s3 = Lt.
Proof.
  induction s1 as [| a s1 IH]; intros [| b s2] [| c s3]; simpl;
    try discriminate; try reflexivity.
  destruct (Ascii.compare a b) eqn:Hab; try discriminate;
    destruct (Ascii.compare b c) eqn:Hbc; try discriminate.
  - apply Ascii.compare_eq_iff in Hab, Hbc. subst.
    rewrite ascii_compare_refl. apply IH.
  - apply Ascii.compare_eq_iff in Hab. subst. now rewrite Hbc.
  - apply Ascii.compare_eq_iff in Hbc. subst. now rewrite Hab.
  - now rewrite (ascii_compare_lt_trans _ _ _ Hab Hbc).
Qed.

Lemma str_le_refl (a : string) : str_le a a.
Proof. unfold str_le, String.leb. now rewrite compare_refl. Qed.

Lemma str_le_trans (a b c : string) : str_le a b -> str_le b c -> str_le a c.
Proof.
  unfold str_le, String.leb. intros Hab Hbc.
  destruct (String.compare a b) eqn:Eab; try discriminate.
  - apply String.compare_eq_iff in Eab. now subst.
  - destruct (String.compare b c) eqn:Ebc; try discriminate.
    + apply String.compare_eq_iff in Ebc. subst. now rewrite Eab.
    + now rewrite (compare_lt_trans _ _ _ Eab Ebc).
Qed.

Lemma str_le_total (a b : string) : str_le a b \/ str_le b a.
Proof. apply String.leb_total. Qed.

Lemma str_le_antisym (a b : string) : str_le a b -> str_le b a -> a = b.
Proof. apply String.leb_antisym. Qed.

Lemma str_le_neq_lt (a b : string) : str_le a b -> a <> b -> str_lt a b.
Proof.
  unfold str_le, str_lt, String.leb, String.ltb. intros Hle Hne.
  destruct (String.compare a b) eqn:E; try discriminate; [| reflexivity].
  apply String.compare_eq_iff in E. contradiction.
Qed.

(** ** [sorted] sorts *)

Lemma insert_sorted_perm (x : string) (l : list string) :
  Permutation (x :: l) (insert_sorted x l).
Proof.
  induction l as [| y l IH]; simpl; [reflexivity |].
  destruct (String.leb x y); [reflexivity |].
  rewrite perm_swap. now constructor.
Qed.

Lemma sorted_perm (l : list string) : Permutation l (sorted l).
Proof.
  induction l as [| x l IH]; simpl; [constructor |].
  rewrite <- insert_sorted_perm. now constructor.
Qed.

Lemma insert_sorted_sorted (x : string) (l : list string) :
  StronglySorted str_le l -> StronglySorted str_le (insert_sorted x l).
Proof.
  induction 1 as [| y l Hl IH Hy]; simpl.
  - repeat constructor.
  - destruct (String.leb x y) eqn:E.
    + constructor; [now constructor |]. constructor; [exact E |].
      eapply Forall_impl; [| exact Hy]. intros z Hz.
      eapply str_le_trans; [exact E | exact Hz].
    + constructor; [assumption |].
      assert (Hyx : str_le y x) by (destruct (str_le_total x y) as [H | H];
                                 [unfold str_le in H; congruence | assumption]).
      eapply Permutation_Forall; [apply insert_sorted_perm |].
      now constructor.
Qed.

Lemma sorted_sorted (l : list string) : StronglySorted str_le (sorted l).
Proof.
  induction l as [| x l IH]; simpl; [constructor |].
  now apply insert_sorted_sorted.
Qed.

Lemma sorted_unique (l1 : list string) :
  forall l2, StronglySorted str_le l1 -> StronglySorted str_le l2 ->
    Permutation l1 l2 -> l1 = l2.
Proof.
  induction l1 as [| x l1 IH]; intros l2 H1 H2 HP.
  - now apply Permutation_nil in HP.
  - destruct l2 as [| y l2];
      [apply Permutation_sym, Permutation_nil in HP; discriminate |].
    inversion H1 as [| ? ? H1' Hx]; inversion H2 as [| ? ? H2' Hy]; subst.
    assert (x = y) as ->.
    { apply str_le_antisym.
      - assert (Hin : In y (x :: l1))
          by (eapply Permutation_in; [symmetry; exact HP | now left]).
        destruct Hin as [-> | Hin]; [apply str_le_refl |].
        rewrite Forall_forall in Hx. now apply Hx.
      - assert (Hin : In x (y :: l2))
          by (eapply Permutation_in; [exact HP | now left]).
        destruct Hin as [-> | Hin]; [apply str_le_refl |].
        rewrite Forall_forall in Hy. now apply Hy. }
    f_equal. apply IH; try assumption.
    eapply Permutation_cons_inv; exact HP.
Qed.

Lemma sorted_strict (l : list string) :
  StronglySorted str_le l -> NoDup l -> StronglySorted str_lt l.
Proof.
  induction 1 as [| x l Hl IH Hx]; intros Hnd; [constructor |].
  inversion Hnd as [| ? ? Hnotin Hnd']; subst.
  constructor; [now apply IH |].
  rewrite Forall_forall in *. intros y Hy.
  apply str_le_neq_lt; [now apply Hx |]. intros ->. contradiction.
Qed.

(** ** The dict of tasks *)

Section Dict.

Context {value Ext : Type}.
Implicit Types (d reg : registry value Ext) (r : registration value Ext).

Lemma dict_get_In d k : dict_get d k <> None <-> In k (keys d).
Proof.
  induction d as [| [k' v] d IH]; simpl; [tauto |].
  destruct (String.eqb_spec k' k) as [-> | Hne].
  - split; [now left | discriminate].
  - rewrite IH. split; [now right | intros [H | H]; [contradiction | assumption]].
Qed.

Lemma keys_dict_set d k v :
  keys (dict_set d k v) = if contains k (keys d) then keys d else keys d ++ [k].
Proof.
  induction d as [| [k' v'] d IH]; simpl; [reflexivity |].
  rewrite (String.eqb_sym k k').
  destruct (String.eqb_spec k' k) as [-> | Hne]; simpl; [reflexivity |].
  fold (keys d) (contains k (keys d)). rewrite IH.
  now destruct (contains k (keys d)).
Qed.

Lemma keys_register_In reg r n :
  In n (keys (register reg r)) <-> n = r_name r \/ In n (keys reg).
Proof.
  unfold register. rewrite keys_dict_set.
  destruct (contains (r_name r) (keys reg)) eqn:E.
  - apply contains_In in E. split; [now right | intros [-> | H]; assumption].
  - rewrite in_app_iff. simpl. split; [intros [H | [H | []]] | intros [H | H]]; auto.
Qed.

Lemma keys_register_NoDup reg r :
  NoDup (keys reg) -> NoDup (keys (register reg r)).
Proof.
  intros Hnd. unfold register. rewrite keys_dict_set.
  destruct (contains (r_name r) (keys reg)) eqn:E; [assumption |].
  apply NoDup_app; [assumption | repeat constructor; intros [] |].
  intros x Hx [<- | []].
  apply contains_In in Hx. congruence.
Qed.

Lemma keys_register_all_In rs : forall reg n,
  In n (keys (register_all rs reg)) <-> In n (map r_name rs) \/ In n (keys reg).
Proof.
  induction rs as [| r rs IH]; intros reg n; simpl; [tauto |].
  unfold register_all in *. simpl. rewrite IH, keys_register_In.
  intuition auto.
Qed.

Lemma keys_register_all_NoDup rs : forall reg,
  NoDup (keys reg) -> NoDup (keys (register_all rs reg)).
Proof.
  induction rs as [| r rs IH]; intros reg Hnd; simpl; [assumption |].
  apply IH. now apply keys_register_NoDup.
Qed.

Lemma dict_get_Some_In d k v :
  dict_get d k = Some v -> In (k, v) d.
Proof.
  induction d as [| [k' v'] d IH]; simpl; [discriminate |].
  destruct (String.eqb_spec k' k) as [-> | Hne].
  - intros [= ->]. now left.
  - intros H. right. now apply IH.
Qed.

Lemma check_ranked_sound reg rank :
  check_ranked reg rank = true -> well_ranked reg rank.
Proof.
  unfold check_ranked. rewrite forallb_forall. intros H name t G dep Hdep.
  apply dict_get_Some_In, H in G. rewrite forallb_forall in G.
  apply G in Hdep. now apply Nat.ltb_lt in Hdep.
Qed.

(** C8. [list_tasks] gives the registered names, each once, in strictly
    ascending order by code points, and the order in which the tasks were
    registered does not change what it gives. *)
Theorem list_tasks_sorted_any_order (rs rs' : list (registration value Ext)) :
  Permutation rs rs' ->
  let reg := register_all rs [] in
  StronglySorted str_lt (list_tasks reg) /\
  (forall n, In n (list_tasks reg) <-> dict_get reg n <> None) /\
  (forall n, In n (list_tasks reg) <-> In n (map r_name rs)) /\
  list_tasks (register_all rs' []) = list_tasks reg.
Proof.
  intros HP reg. unfold list_tasks.
  assert (Hnd : NoDup (keys reg)) by (apply keys_register_all_NoDup; constructor).
  assert (Hmem : forall n, In n (keys reg) <-> In n (map r_name rs)).
  { intros n. unfold reg. rewrite keys_register_all_In. simpl. tauto. }
  repeat split.
  - apply sorted_strict; [apply sorted_sorted |].
    eapply Permutation_NoDup; [apply sorted_perm | exact Hnd].
  - intros H. apply dict_get_In. eapply Permutation_in; [| exact H].
    symmetry. apply sorted_perm.
  - intros H. eapply Permutation_in; [apply sorted_perm |]. now apply dict_get_In.
  - intros H. apply Hmem. eapply Permutation_in; [| exact H].
    symmetry. apply sorted_perm.
  - intros H. eapply Permutation_in; [apply sorted_perm |]. now apply Hmem.
  - apply sorted_unique; try apply sorted_sorted.
    rewrite <- !sorted_perm.
    apply NoDup_Permutation; [apply keys_register_all_NoDup; constructor | exact Hnd |].
    intros n. rewrite Hmem, keys_register_all_In. simpl.
    split; [intros [H | []] | intros H; left].
    + eapply Permutation_in; [| exact H]. apply Permutation_map. now symmetry.
    + eapply Permutation_in; [| exact H]. now apply Permutation_map.
Qed.

End Dict.

(** ** One call of [run_task] *)

Section Runs.

Context {value Ext : Type} {RT : Runtime value}.
Implicit Types (reg : registry value Ext) (w : World value Ext)
  (task : Task value Ext) (x : execution value) (xs : list (execution value)).

Lemma or_new_set_frame executed w e w0 :
  or_new_set executed w = (e, w0) ->
  task_runs w0 = task_runs w /\ log w0 = log w /\ ext w0 = ext w /\
  uuid_calls w0 = uuid_calls w /\ clock_reads w0 = clock_reads w /\
  e < List.length (sets w0) /\
  ((w0 = w /\ executed = Some e) \/
   (w0 = snd (new_set w) /\ deref (sets w0) e = [])).
Proof.
  assert (Hnew : deref (sets w ++ [[]]) (List.length (sets w)) = []).
  { unfold deref. rewrite app_nth2, Nat.sub_diag by lia. reflexivity. }
  unfold or_new_set, new_set.
  destruct executed as [a |]; [destruct (truthy (deref (sets w) a)) eqn:T |];
    intros [= <- <-]; simpl; rewrite ?length_app; simpl;
    repeat split; auto; try lia.
  now apply truthy_deref_valid.
Qed.

Lemma run_body_spec name task e w :
  let x := execution_at name task w in
  let w' := snd (run_body name task e w) in
  fst (run_body name task e w) = execution_outcome x /\
  log w' = log w ++ execution_events x /\
  task_runs w' = replay (execution_events x) (task_runs w) /\
  ext w' = fst (func task (ext w)) /\
  uuid_calls w' = S (uuid_calls w) /\
  clock_reads w' = S (S (clock_reads w)) /\
  sets w' = match execution_outcome x with
            | Returned _ => assign (sets w) e (add name (deref (sets w) e))
            | Raised _ => sets w
            end.
Proof.
  unfold run_body, draw_uuid, call_body, db_insert, db_update, set_add,
    execution_at, execution_outcome, execution_events, replay.
  simpl. destruct (func task (ext w)) as [x0 res]. simpl.
  destruct (l_pending (try_clause res)); simpl;
    [| destruct (Status_eqb (l_status (try_clause res)) FAILED); simpl];
    rewrite <- !app_assoc; simpl; repeat split; reflexivity.
Qed.

Lemma events_of_app xs ys : events_of (xs ++ ys) = events_of xs ++ events_of ys.
Proof. apply flat_map_app. Qed.

Lemma replay_app (evs evs' : list (event value)) (t : table) :
  replay (evs ++ evs') t = replay evs' (replay evs t).
Proof. apply fold_left_app. Qed.

Lemma numbered_app xs : forall ys u k,
  numbered u k (xs ++ ys) <->
  numbered u k xs /\ numbered (u + List.length xs) (k + 2 * List.length xs) ys.
Proof.
  induction xs as [| x xs IH]; intros ys u k; simpl.
  - rewrite !Nat.add_0_r. tauto.
  - rewrite IH.
    replace (S u + List.length xs) with (u + S (List.length xs)) by lia.
    replace (S (S k) + 2 * List.length xs)
      with (k + S (List.length xs + S (List.length xs + 0))) by lia.
    tauto.
Qed.

Lemma follows_refl w w' :
  log w' = log w -> task_runs w' = task_runs w ->
  uuid_calls w' = uuid_calls w -> clock_reads w' = clock_reads w ->
  follows w [] w'.
Proof.
  intros Hl Ht Hu Hc. unfold follows. simpl.
  rewrite app_nil_r. repeat split; auto; lia.
Qed.

Lemma follows_trans w xs w1 ys w2 :
  follows w xs w1 -> follows w1 ys w2 -> follows w (xs ++ ys) w2.
Proof.
  intros (Hl1 & Ht1 & Hn1 & Hu1 & Hc1) (Hl2 & Ht2 & Hn2 & Hu2 & Hc2).
  unfold follows. rewrite events_of_app, replay_app, numbered_app, length_app.
  rewrite Hl2, Hl1, Ht2, Ht1, Hu2, Hu1, Hc2, Hc1, app_assoc.
  rewrite Hu1, Hc1 in Hn2. repeat split; auto; lia.
Qed.

Lemma follows_run_body name task e w :
  follows w [execution_at name task w] (snd (run_body name task e w)).
Proof.
  destruct (run_body_spec name task e w) as (_ & Hl & Ht & _ & Hu & Hc & _).
  unfold follows, events_of. simpl. rewrite ?app_nil_r.
  repeat split; auto; lia.
Qed.

Lemma for_each_dep_trace reg call :
  (forall dep E w out w', call dep E w = Some (out, w') ->
     exists xs, follows w xs w' /\ call_trace reg dep xs out) ->
  forall deps e w r w', for_each_dep call deps e w = Some (r, w') ->
    exists xs, follows w xs w' /\ loop_trace reg deps xs r.
Proof.
  intros Hcall. induction deps as [| dep rest IH]; intros e w r w' H; simpl in H.
  - injection H as <- <-. exists []. split; [now apply follows_refl | constructor].
  - destruct (call dep (Some e) w) as [[[rid | x] w1] |] eqn:E; try discriminate.
    + destruct (Hcall _ _ _ _ _ E) as (xs & Hf & Ht).
      destruct (IH _ _ _ _ H) as (xs' & Hf' & Ht').
      exists (xs ++ xs'). split; [eapply follows_trans; eassumption |].
      econstructor; eassumption.
    + injection H as <- <-.
      destruct (Hcall _ _ _ _ _ E) as (xs & Hf & Ht).
      exists xs. split; [assumption | now constructor].
Qed.

(** Every call that returns went through executions that [call_trace]
    describes, and did nothing else to the log and the table. *)
Lemma run_task_trace reg fuel : forall name E w out w',
  run_task fuel reg name E w = Some (out, w') ->
  exists xs, follows w xs w' /\ call_trace reg name xs out.
Proof.
  induction fuel as [| fuel IH]; intros name E w out w' H; [discriminate |].
  simpl in H. destruct (or_new_set E w) as [e w0] eqn:E0.
  destruct (or_new_set_frame _ _ _ _ E0) as (Ht & Hl & _ & Hu & Hc & _).
  assert (F0 : follows w [] w0) by now apply follows_refl.
  destruct (contains name (deref (sets w0) e)).
  { injection H as <- <-. exists []. split; [assumption | constructor]. }
  destruct (dict_get reg name) as [task |] eqn:G.
  2:{ injection H as <- <-. exists []. split; [assumption | now constructor]. }
  destruct (for_each_dep (run_task fuel reg) (dependencies task) e w0)
    as [[[x |] w1] |] eqn:L; try discriminate.
  - injection H as <- <-.
    destruct (for_each_dep_trace reg _ IH _ _ _ _ _ L) as (xs & Hf & Hlt).
    exists xs. split; [apply (follows_trans _ _ _ _ _ F0 Hf) |].
    econstructor; eassumption.
  - destruct (for_each_dep_trace reg _ IH _ _ _ _ _ L) as (xs & Hf & Hlt).
    destruct (run_body_spec name task e w1) as (Ho & _).
    pose proof (follows_run_body name task e w1) as Hb.
    destruct (run_body name task e w1) as [o wb]. injection H as <- <-.
    simpl in Ho, Hb. subst o.
    exists (xs ++ [execution_at name task w1]). split.
    + apply (follows_trans _ _ _ _ _ F0). eapply follows_trans; eassumption.
    + econstructor; eauto.
Qed.


(** *** Invariants of a run *)

Lemma for_each_dep_invariant (P : World value Ext -> Prop) call :
  (forall dep E w out w', call dep E w = Some (out, w') -> P w -> P w') ->
  forall deps e w r w', for_each_dep call deps e w = Some (r, w') -> P w -> P w'.
Proof.
  intros Hcall. induction deps as [| dep rest IH]; intros e w r w' H HP; simpl in H.
  - now injection H as <- <-.
  - destruct (call dep (Some e) w) as [[[rid | x] w1] |] eqn:E; try discriminate.
    + eapply IH; [exact H |]. eapply Hcall; eassumption.
    + injection H as <- <-. eapply Hcall; eassumption.
Qed.

(** What allocating a set and executing a registered task keep true, a
    whole call keeps true. *)
Lemma run_task_invariant reg (P : World value Ext -> Prop) :
  (forall w, P w -> P (snd (new_set w))) ->
  (forall name task e w, dict_get reg name = Some task -> P w ->
     P (snd (run_body name task e w))) ->
  forall fuel name E w out w',
    run_task fuel reg name E w = Some (out, w') -> P w -> P w'.
Proof.
  intros Hnew Hbody.
  induction fuel as [| fuel IH]; intros name E w out w' H HP; [discriminate |].
  simpl in H. destruct (or_new_set E w) as [e w0] eqn:E0.
  assert (HP0 : P w0).
  { destruct (or_new_set_frame _ _ _ _ E0)
      as (_ & _ & _ & _ & _ & _ & [[-> _] | [-> _]]); auto. }
  destruct (contains name (deref (sets w0) e)); [now injection H as <- <- |].
  destruct (dict_get reg name) as [task |] eqn:G; [| now injection H as <- <-].
  destruct (for_each_dep (run_task fuel reg) (dependencies task) e w0)
    as [[[x |] w1] |] eqn:L; try discriminate.
  - injection H as <- <-. eapply for_each_dep_invariant; eauto.
  - assert (HP1 : P w1) by (eapply for_each_dep_invariant; eauto).
    specialize (Hbody name task e w1 G HP1).
    destruct (run_body name task e w1). now injection H as <- <-.
Qed.

(** *** Termination *)

Lemma for_each_dep_terminates call (deps : list string) :
  (forall dep, In dep deps -> forall E (w : World value Ext),
     exists out w', call dep E w = Some (out, w')) ->
  forall e w, exists r w', for_each_dep call deps e w = Some (r, w').
Proof.
  induction deps as [| dep rest IH]; intros Hcall e w; simpl.
  - now exists None, w.
  - destruct (Hcall dep (or_introl eq_refl) (Some e) w) as ([rid | x] & w1 & ->).
    + apply IH. intros d Hd. apply Hcall. now right.
    + now exists (Some x), w1.
Qed.

(** On a dependency graph without cycles a call returns or raises, given
    fuel beyond the rank of the task. *)
Lemma run_task_terminates reg rank :
  well_ranked reg rank ->
  forall fuel name E w, rank name < fuel ->
    exists out w', run_task fuel reg name E w = Some (out, w').
Proof.
  intros Hrank. induction fuel as [| fuel IH]; intros name E w Hlt; [lia |].
  simpl. destruct (or_new_set E w) as [e w0].
  destruct (contains name (deref (sets w0) e)); [eauto |].
  destruct (dict_get reg name) as [task |] eqn:G; [| eauto].
  destruct (for_each_dep_terminates (run_task fuel reg) (dependencies task))
    with (e := e) (w := w0) as (r & w1 & ->).
  { intros dep Hdep E' w'. apply IH.
    specialize (Hrank name task G dep Hdep). lia. }
  destruct r; [eauto |]. destruct (run_body name task e w1). eauto.
Qed.


(** *** What the executions of a call look like *)


Lemma execution_outcome_returned x rid :
  execution_outcome x = Returned rid -> rid = x_run_id x.
Proof.
  unfold execution_outcome. destruct (l_pending _); [discriminate |].
  destruct (Status_eqb _ _); [discriminate |]. now intros [= <-].
Qed.


(** A call executes tasks of at most the rank of its own, and the loop
    over its dependencies tasks below it. *)
Lemma trace_rank reg rank :
  well_ranked reg rank ->
  (forall name xs out, call_trace reg name xs out ->
     forall x, In x xs -> rank (x_name x) <= rank name) /\
  (forall deps xs r, loop_trace reg deps xs r ->
     forall bound, (forall dep, In dep deps -> rank dep < bound) ->
     forall x, In x xs -> rank (x_name x) < bound).
Proof.
  intros Hrank. apply call_loop_trace_ind.
  - intros name x [].
  - intros name _ x [].
  - intros name task xs e G _ IH x Hx.
    apply Nat.lt_le_incl, (IH (rank name)); auto. exact (Hrank name task G).
  - intros name task xs x0 G _ IH Hname x Hx.
    apply in_app_or in Hx. destruct Hx as [Hx | [<- | []]]; [| rewrite Hname; lia].
    apply Nat.lt_le_incl, (IH (rank name)); auto. exact (Hrank name task G).
  - intros bound _ x [].
  - intros dep rest xs e _ IH bound Hb x Hx.
    eapply Nat.le_lt_trans; [now apply IH | apply Hb; now left].
  - intros dep rest xs rid xs' r _ IH _ IH' bound Hb x Hx.
    apply in_app_or in Hx. destruct Hx as [Hx | Hx].
    + eapply Nat.le_lt_trans; [now apply IH | apply Hb; now left].
    + apply IH'; auto. intros d Hd. apply Hb. now right.
Qed.



(** *** The records of a run *)

Lemma replay_execution x (t : table) :
  replay (execution_events x) t = 
  update_run (wall_clock (S (x_clock x))) (l_status (try_clause (x_result x)))
    (l_artifacts (try_clause (x_result x))) (l_error (try_clause (x_result x)))
    (x_run_id x)
    (insert_run (x_run_id x) (x_name x) RUNNING
       (CURRENT_TIMESTAMP (wall_clock (x_clock x))) t).
Proof. reflexivity. Qed.

Lemma update_run_columns done st art err rid (t : table) :
  map task_name (update_run done st art err rid t) = map task_name t /\
  map run_id (update_run done st art err rid t) = map run_id t.
Proof.
  unfold update_run. rewrite !map_map. split; apply map_ext; intros r;
    unfold update_row; now destruct (String.eqb (run_id r) rid).
Qed.

Lemma replay_columns xs : forall t : table,
  map task_name (replay (events_of xs) t) = map task_name t ++ map x_name xs /\
  map run_id (replay (events_of xs) t) = map run_id t ++ map x_run_id xs.
Proof.
  induction xs as [| x xs IH]; intros t.
  - simpl. now rewrite !app_nil_r.
  - change (events_of (x :: xs)) with (execution_events x ++ events_of xs).
    rewrite replay_app. destruct (IH (replay (execution_events x) t)) as [-> ->].
    rewrite replay_execution.
    destruct (update_run_columns (wall_clock (S (x_clock x)))
                (l_status (try_clause (x_result x)))
                (l_artifacts (try_clause (x_result x)))
                (l_error (try_clause (x_result x))) (x_run_id x)
                (insert_run (x_run_id x) (x_name x) RUNNING
                   (CURRENT_TIMESTAMP (wall_clock (x_clock x))) t)) as [-> ->].
    unfold insert_run. rewrite !map_app, <- !app_assoc. now simpl.
Qed.

Lemma skipn_length_app {A : Type} (l l' : list A) :
  skipn (List.length l) (l ++ l') = l'.
Proof. induction l; simpl; auto. Qed.

(** The records a run adds are those of its executions, in order. *)
Lemma follows_records w xs w' :
  follows w xs w' ->
  map task_name (rows_since w w') = map x_name xs /\
  map run_id (rows_since w w') = map x_run_id xs.
Proof.
  intros (_ & Ht & _). unfold rows_since.
  destruct (replay_columns xs (task_runs w)) as [Hn Hr].
  rewrite <- Ht in Hn, Hr. rewrite <- !skipn_map, Hn, Hr. split.
  - rewrite <- (length_map task_name (task_runs w)). apply skipn_length_app.
  - rewrite <- (length_map run_id (task_runs w)). apply skipn_length_app.
Qed.

(** The record of the last execution of a run is in the table as that
    execution left it. *)
Lemma follows_last_row w xs x w' :
  follows w (xs ++ [x]) w' -> In (execution_row x) (task_runs w').
Proof.
  intros (_ & Ht & _). rewrite Ht, events_of_app, replay_app.
  change (events_of [x]) with (execution_events x).
  rewrite replay_execution.
  unfold update_run, insert_run. rewrite map_app. apply in_or_app. right.
  simpl. left. unfold update_row. simpl. now rewrite String.eqb_refl.
Qed.

(** *** Execution sets *)





(** C10. A call for a name that is in the execution set it is given
    returns the empty text, and the world is as it was: no record, no
    call of a body, the same sets. *)
Theorem run_task_already_executed reg fuel name (a : ref) w :
  contains name (deref (sets w) a) = true ->
  run_task (S fuel) reg name (Some a) w = Some (Returned "", w).
Proof.
  intros H. simpl. unfold or_new_set.
  rewrite (contains_truthy _ _ H). now rewrite H.
Qed.


(** C9. Sending the [UPDATE] of a run a second time, with the same
    values, leaves the table as the first one left it. *)
Theorem update_run_idempotent done st art err rid (t : table) :
  update_run done st art err rid (update_run done st art err rid t)
  = update_run done st art err rid t.
Proof.
  unfold update_run. rewrite map_map. apply map_ext. intros r.
  unfold update_row. destruct (String.eqb (run_id r) rid) eqn:E; simpl;
    now rewrite E.
Qed.


(** *** The life of a record *)

Lemma try_clause_terminal (res : body_outcome value) :
  l_status (try_clause res) = SUCCESS \/ l_status (try_clause res) = FAILED.
Proof.
  unfold try_clause, except_clause.
  destruct res as [[v |] | exc]; simpl; auto;
    [destruct (json_dumps v) as [exc | text]; simpl; auto |];
    destruct (is_Exception exc); simpl; auto.
Qed.








(** *** Failures *)

Lemma try_clause_failed (res : body_outcome value) :
  l_status (try_clause res) = FAILED -> l_pending (try_clause res) = None.
Proof.
  unfold try_clause, except_clause.
  destruct res as [[v |] | exc]; simpl; try discriminate;
    [destruct (json_dumps v) as [exc | text]; simpl; try discriminate |];
    destruct (is_Exception exc); simpl; auto; discriminate.
Qed.



(** *** Success *)

Lemma sets_grow reg (bound : nat) fuel name E w out w' :
  run_task fuel reg name E w = Some (out, w') ->
  bound <= List.length (sets w) -> bound <= List.length (sets w').
Proof.
  apply run_task_invariant with (P := fun w => bound <= List.length (sets w)).
  - intros w1 H. simpl. rewrite length_app. simpl. lia.
  - intros n task e w1 _ H.
    destruct (run_body_spec n task e w1) as (_ & _ & _ & _ & _ & _ & ->).
    destruct (execution_outcome _); [now rewrite length_assign | assumption].
Qed.

(** C7, for bodies that return [None] or a value [json.dumps] accepts.
    Once the dependencies of a registered task have run, if its body
    returns such a value, the call returns the run identifier just drawn;
    the record is inserted and then updated to SUCCESS, with the text of
    the value in [artifacts] ([NULL] for [None]) and [error] left [NULL];
    and the name is in the execution set afterwards: the set the call
    made when it was given none, the set it was given when that one held
    a name already. *)
Theorem run_task_success reg fuel name E w task e w0 w1 ext' result art :
  dict_get reg name = Some task ->
  or_new_set E w = (e, w0) ->
  contains name (deref (sets w0) e) = false ->
  for_each_dep (run_task fuel reg) (dependencies task) e w0 = Some (None, w1) ->
  func task (ext w1) = (ext', BodyReturns result) ->
  serialized result art ->
  let rid := uuid4_hex (uuid_calls w1) in
  let at_ := CURRENT_TIMESTAMP (wall_clock (clock_reads w1)) in
  let done := wall_clock (S (clock_reads w1)) in
  exists w',
    run_task (S fuel) reg name E w = Some (Returned rid, w') /\
    log w' = log w1 ++ [ SqlInsert rid name RUNNING at_;
                         BodyCall name (BodyReturns result);
                         SqlUpdate done SUCCESS art None rid ] /\
    In (mkRow rid name SUCCESS at_ (Some done) art None) (task_runs w') /\
    ext w' = ext' /\
    (E = None -> contains name (deref (sets w') e) = true) /\
    (forall a, E = Some a -> truthy (deref (sets w) a) = true ->
       contains name (deref (sets w') a) = true).
Proof.
  intros G E0 Hc L Hbody Hser rid at_ done.
  destruct (or_new_set_frame _ _ _ _ E0) as (_ & _ & _ & _ & _ & He & _).
  assert (He1 : e < List.length (sets w1)).
  { eapply (for_each_dep_invariant (fun w => S e <= List.length (sets w)));
      [| exact L | exact He].
    intros dep E' w2 out w3 H. now apply sets_grow with (1 := H). }
  set (x := execution_at name task w1).
  assert (Hres : x_result x = BodyReturns result) by (simpl; now rewrite Hbody).
  assert (Hl : try_clause (x_result x) = mkLocals SUCCESS art None None).
  { rewrite Hres. simpl. destruct result as [v |]; simpl in Hser.
    - destruct Hser as (text & -> & ->). reflexivity.
    - now subst. }
  assert (Ho : execution_outcome x = Returned rid).
  { unfold execution_outcome. now rewrite Hl. }
  destruct (run_body_spec name task e w1) as (Hout & Hlog & _ & Hext & _ & _ & Hsets).
  pose proof (follows_run_body name task e w1) as Hf.
  fold x in Hout, Hlog, Hsets, Hf. rewrite Ho in Hout, Hsets.
  assert (Hin : contains name (deref (sets (snd (run_body name task e w1))) e) = true).
  { rewrite Hsets, deref_assign_same by assumption. apply contains_add. }
  exists (snd (run_body name task e w1)). repeat split.
  - simpl. rewrite E0, Hc, G, L. f_equal. rewrite <- Hout. now destruct (run_body _ _ _ _).
  - rewrite Hlog. unfold execution_events. now rewrite Hl, Hres.
  - apply (follows_last_row w1 [] x) in Hf.
    unfold execution_row in Hf. now rewrite Hl in Hf.
  - rewrite Hext. now rewrite Hbody.
  - intros _. exact Hin.
  - intros a -> T. unfold or_new_set in E0. rewrite T in E0.
    injection E0 as <- _. exact Hin.
Qed.

End Runs.

(** * The scenarios *)

Import Scenario.

Lemma hex_injective : forall i j, hex i = hex j -> i = j.
Proof.
  induction i as [| i IH]; intros [| j] H; simpl in H;
    try reflexivity; try discriminate.
  injection H as H. f_equal. now apply IH.
Qed.

Lemma clock_is_monotone : clock_monotone.
Proof.
  unfold clock_monotone. simpl. unfold clock. intros i j H. lia.
Qed.


Lemma scenario_A_ranked : well_ranked scenario_A depth.
Proof. now apply check_ranked_sound. Qed.

Lemma scenario_B_ranked : well_ranked scenario_B depth.
Proof. now apply check_ranked_sound. Qed.

Lemma scenario_C_ranked : well_ranked scenario_C depth.
Proof. now apply check_ranked_sound. Qed.

(** ** Scenario C: a dependency shared by two tasks *)

(** C1. On the registry of scenario C, [run_task("root")] calls the body
    of "shared" twice and leaves two records for it: the set a call is
    given is empty until something is added to it, an empty set is falsy,
    so [_executed or set()] gives each call below "root" a set of its
    own. *)
Theorem scenario_C_runs_shared_twice :
  exists rid w',
    run_task 3 scenario_C "root" None world0 = Some (Returned rid, w') /\
    map task_name (task_runs w') = ["shared"; "a"; "shared"; "b"; "root"] /\
    List.length (rows_of_task "shared" (task_runs w')) = 2 /\
    body_calls "shared" (log w') = 2 /\
    sets w' = [["root"]; ["a"]; ["shared"]; ["b"]; ["shared"]].
Proof.
  do 2 eexists. split; [vm_compute; reflexivity |].
  repeat split; reflexivity.
Qed.


(** ** Scenario B: a dependency that fails *)


(** Scenario B as it runs: the failure of "base" reaches the caller with
    the run identifier of "base", and "dependent" has no record. *)
Example scenario_B_runs :
  exists w',
    run_task 2 scenario_B "dependent" None world0
    = Some (Raised (RuntimeError "Task base failed; run_id=0"), w') /\
    map (fun r => (run_id r, task_name r, status r)) (task_runs w')
    = [("0", "base", FAILED)] /\
    body_calls "dependent" (log w') = 0.
Proof.
  eexists. split; [vm_compute; reflexivity |]. split; reflexivity.
Qed.

(** ** Scenario A: a task that returns a value *)

Lemma run_task_success_witness :
  let w0 := snd (new_set world0) in
  dict_get scenario_A "base" = Some base_task /\
  or_new_set None world0 = (0, w0) /\
  contains "base" (deref (sets w0) 0) = false /\
  for_each_dep (run_task 0 scenario_A) (dependencies base_task) 0 w0
    = Some (None, w0) /\
  func base_task (ext w0) = (1, BodyReturns (Some (Dict [("n", 1%Z)]))) /\
  serialized (Some (Dict [("n", 1%Z)])) (Some n_is_1) /\
  exists w',
    run_task 1 scenario_A "base" None world0 = Some (Returned "0", w') /\
    log w' = log w0 ++ [ SqlInsert "0" "base" RUNNING 0;
                         BodyCall "base" (BodyReturns (Some (Dict [("n", 1%Z)])));
                         SqlUpdate 1500000 SUCCESS (Some n_is_1) None "0" ] /\
    In (mkRow "0" "base" SUCCESS 0 (Some 1500000%Z) (Some n_is_1) None)
       (task_runs w') /\
    ext w' = 1 /\
    (@None ref = None -> contains "base" (deref (sets w') 0) = true) /\
    (forall a, None = Some a -> truthy (deref (sets world0) a) = true ->
       contains "base" (deref (sets w') a) = true).
Proof.
  intros w0.
  assert (H1 : dict_get scenario_A "base" = Some base_task) by reflexivity.
  assert (H2 : or_new_set None world0 = (0, w0)) by reflexivity.
  assert (H3 : contains "base" (deref (sets w0) 0) = false) by reflexivity.
  assert (H4 : for_each_dep (run_task 0 scenario_A) (dependencies base_task) 0 w0
               = Some (None, w0)) by reflexivity.
  assert (H5 : func base_task (ext w0)
               = (1, BodyReturns (Some (Dict [("n", 1%Z)])))) by reflexivity.
  assert (H6 : serialized (Some (Dict [("n", 1%Z)])) (Some n_is_1))
    by (exists n_is_1; split; reflexivity).
  exact (conj H1 (conj H2 (conj H3 (conj H4 (conj H5 (conj H6
           (run_task_success scenario_A 0 "base" None world0 base_task 0 w0 w0
              1 (Some (Dict [("n", 1%Z)])) (Some n_is_1)
              H1 H2 H3 H4 H5 H6))))))).
Defined.

(** ** Scenario D: a name that is not registered *)


(** Scenario D as it runs: nothing is written. *)
Example scenario_D_runs :
  exists w',
    run_task 1 scenario_A "nonexistent" None world0
    = Some (Raised (KeyError "Unknown task: nonexistent"), w') /\
    task_runs w' = [] /\ log w' = [].
Proof.
  eexists. split; [vm_compute; reflexivity |]. split; reflexivity.
Qed.

(** ** A name that is in the execution set *)

Lemma run_task_already_executed_witness :
  contains "base" (deref (sets world_base_done) 0) = true /\
  run_task 1 scenario_A "base" (Some 0) world_base_done
  = Some (Returned "", world_base_done).
Proof.
  assert (H : contains "base" (deref (sets world_base_done) 0) = true)
    by reflexivity.
  exact (conj H (run_task_already_executed scenario_A 0 "base" 0
                   world_base_done H)).
Defined.

(** ** Listing *)

Lemma list_tasks_sorted_any_order_witness :
  let rs := [ task "b" (returns None) ["a"]; task "a" (returns None) [] ] in
  let rs' := [ task "a" (returns None) []; task "b" (returns None) ["a"] ] in
  Permutation rs rs' /\
  StronglySorted str_lt (list_tasks (register_all rs [])) /\
  (forall n, In n (list_tasks (register_all rs []))
             <-> dict_get (register_all rs []) n <> None) /\
  (forall n, In n (list_tasks (register_all rs [])) <-> In n (map r_name rs)) /\
  list_tasks (register_all rs' []) = list_tasks (register_all rs []).
Proof.
  intros rs rs'.
  assert (H : Permutation rs rs') by apply perm_swap.
  exact (conj H (list_tasks_sorted_any_order rs rs' H)).
Defined.

(** ** Where the claims as written stop *)


(** C7 as written fails for a value [json.dumps] refuses: the body of
    "report" returns, and the run is marked FAILED and ends in a
    [RuntimeError]. *)
Lemma unserializable_result_fails :
  func (mkTask (returns (Some Object)) None [] "") 0
    = (1, BodyReturns (Some Object)) /\
  exists w',
    run_task 1 unserializable "report" None world0
    = Some (Raised (RuntimeError "Task report failed; run_id=0"), w') /\
    map (fun r => (task_name r, status r, artifacts r)) (task_runs w')
    = [("report", FAILED, None)] /\
    sets w' = [[]].
Proof.
  split; [reflexivity |].
  eexists. split; [vm_compute; reflexivity |]. split; reflexivity.
Qed.

(** * More about the registry *)

Section MoreRuns.

Context {value Ext : Type} {RT : Runtime value}.
Implicit Types (reg : registry value Ext) (w : World value Ext)
  (task : Task value Ext) (x : execution value) (xs : list (execution value)).

(** ** [register] and [get] *)

Lemma dict_get_set_same reg k task : dict_get (dict_set reg k task) k = Some task.
Proof.
  induction reg as [| [k' v'] reg IH]; simpl.
  - now rewrite String.eqb_refl.
  - destruct (String.eqb_spec k' k) as [-> | Hne]; simpl.
    + now rewrite String.eqb_refl.
    + destruct (String.eqb_spec k' k); [contradiction | exact IH].
Qed.

Lemma dict_get_set_other reg k k' task :
  k' <> k -> dict_get (dict_set reg k task) k' = dict_get reg k'.
Proof.
  intros Hne. induction reg as [| [k0 v0] reg IH]; simpl.
  - destruct (String.eqb_spec k k'); [congruence | reflexivity].
  - destruct (String.eqb_spec k0 k) as [-> | Hne0]; simpl.
    + destruct (String.eqb_spec k k'); [congruence | reflexivity].
    + destruct (String.eqb_spec k0 k'); [reflexivity | exact IH].
Qed.

Lemma deref_assign_other (h : heap) : forall e a (s : pyset),
  a <> e -> deref (assign h e s) a = deref h a.
Proof.
  unfold deref. induction h as [| s0 h IH]; intros e a s Hne; [reflexivity |].
  destruct e as [| e]; destruct a as [| a]; simpl; try reflexivity; try lia.
  apply IH. lia.
Qed.

Lemma deref_new_old (h : heap) (a : ref) :
  a < List.length h -> deref (h ++ [[]]) a = deref h a.
Proof. intros H. unfold deref. now rewrite app_nth1. Qed.


(** X1. After [register], [get] gives the task just registered, with an
    empty list where no dependencies were passed, and what it gives for
    every other name is what it gave before. *)
Theorem register_then_get reg (r : registration value Ext) :
  get (register reg r) (r_name r)
  = Some (mkTask (r_func r) (r_cadence r)
            (match r_dependencies r with Some l => l | None => [] end)
            (r_description r)) /\
  forall name, name <> r_name r -> get (register reg r) name = get reg name.
Proof.
  unfold get, register. split; [apply dict_get_set_same |].
  intros name Hne. now apply dict_get_set_other.
Qed.



(** ** Sets of other calls are left alone *)

Lemma or_new_set_cases (E : option ref) w e w0 :
  or_new_set E w = (e, w0) ->
  (E = Some e /\ truthy (deref (sets w) e) = true /\ w0 = w) \/
  (e = List.length (sets w) /\ w0 = snd (new_set w) /\
   forall a, E = Some a -> truthy (deref (sets w) a) = false).
Proof.
  unfold or_new_set.
  destruct E as [a |]; [destruct (truthy (deref (sets w) a)) eqn:T |];
    intros H.
  - injection H as <- <-. now left.
  - unfold new_set in *. injection H as <- <-. right. repeat split.
    now intros a' [= <-].
  - unfold new_set in *. injection H as <- <-. right. repeat split.
    discriminate.
Qed.

(** A call changes no set that was there before, but the one it is given
    when that one is not empty. *)
Lemma run_task_sets_frame reg fuel : forall name E w out w',
  run_task fuel reg name E w = Some (out, w') ->
  List.length (sets w) <= List.length (sets w') /\
  forall a, a < List.length (sets w) ->
    (E = Some a -> truthy (deref (sets w) a) = false) ->
    deref (sets w') a = deref (sets w) a.
Proof.
  induction fuel as [| fuel IH]; intros name E w out w' H; [discriminate |].
  simpl in H. destruct (or_new_set E w) as [e w0] eqn:E0.
  assert (H0 : List.length (sets w) <= List.length (sets w0) /\
               forall a, a < List.length (sets w) ->
                 (E = Some a -> truthy (deref (sets w) a) = false) ->
                 a <> e /\ deref (sets w0) a = deref (sets w) a).
  { destruct (or_new_set_cases _ _ _ _ E0) as [(-> & T & ->) | (-> & -> & _)].
    - split; [lia |]. intros a Ha Hfalsy. split; [| reflexivity].
      intros ->. rewrite (Hfalsy eq_refl) in T. discriminate.
    - simpl. rewrite length_app. simpl. split; [lia |].
      intros a Ha _. split; [lia | now apply deref_new_old]. }
  destruct H0 as [Hlen0 Hframe0].
  assert (Hloop : forall deps w1 r w2,
            for_each_dep (run_task fuel reg) deps e w1 = Some (r, w2) ->
            List.length (sets w1) <= List.length (sets w2) /\
            forall a, a < List.length (sets w1) -> a <> e ->
              deref (sets w2) a = deref (sets w1) a).
  { induction deps as [| dep rest IHd]; intros w1 r w2 HL; simpl in HL.
    - injection HL as <- <-. auto.
    - destruct (run_task fuel reg dep (Some e) w1) as [[[rid | x] w1'] |] eqn:Ed;
        try discriminate.
      + destruct (IH _ _ _ _ _ Ed) as [Hl1 Hf1].
        destruct (IHd _ _ _ HL) as [Hl2 Hf2]. split; [lia |].
        intros a Ha Hne. rewrite Hf2 by (auto; lia). apply Hf1; auto.
        intros [= ->]. contradiction.
      + injection HL as <- <-. destruct (IH _ _ _ _ _ Ed) as [Hl1 Hf1].
        split; [assumption |]. intros a Ha Hne. apply Hf1; auto.
        intros [= ->]. contradiction. }
  destruct (contains name (deref (sets w0) e)).
  { injection H as <- <-. split; [assumption |]. intros a Ha Hf.
    now apply Hframe0. }
  destruct (dict_get reg name) as [task |] eqn:G.
  2:{ injection H as <- <-. split; [assumption |]. intros a Ha Hf.
      now apply Hframe0. }
  destruct (for_each_dep (run_task fuel reg) (dependencies task) e w0)
    as [[[x |] w1] |] eqn:L; try discriminate.
  - injection H as <- <-. destruct (Hloop _ _ _ _ L) as [Hl1 Hf1].
    split; [lia |]. intros a Ha Hf. destruct (Hframe0 a Ha Hf) as [Hne Hd].
    rewrite Hf1 by (auto; lia). exact Hd.
  - destruct (Hloop _ _ _ _ L) as [Hl1 Hf1].
    destruct (run_body_spec name task e w1) as (_ & _ & _ & _ & _ & _ & Hs).
    destruct (run_body name task e w1) as [o wb]. injection H as <- <-.
    simpl in Hs. split.
    + rewrite Hs. destruct (execution_outcome _); [rewrite length_assign |]; lia.
    + intros a Ha Hf. destruct (Hframe0 a Ha Hf) as [Hne Hd].
      rewrite Hs. destruct (execution_outcome _);
        [rewrite deref_assign_other by assumption |];
        rewrite Hf1 by (auto; lia); exact Hd.
Qed.


(** ** A run that starts without a set skips nothing *)

Lemma prefix_of_refl (l : list string) : prefix_of l l.
Proof. exists []. now rewrite app_nil_r. Qed.

Lemma prefix_of_app_l (l l1 l2 : list string) :
  prefix_of l1 l2 -> prefix_of (l ++ l1) (l ++ l2).
Proof. intros [rest ->]. exists rest. now rewrite app_assoc. Qed.

Lemma prefix_of_app_r (l1 l2 l : list string) :
  prefix_of l1 l2 -> prefix_of l1 (l2 ++ l).
Proof. intros [rest ->]. exists (rest ++ l). now rewrite app_assoc. Qed.

Lemma run_task_no_set_yet reg fuel : forall name E w out w',
  no_set_yet E w ->
  run_task fuel reg name E w = Some (out, w') ->
  exists xs, follows w xs w' /\
    prefix_of (map x_name xs) (expansion fuel reg name) /\
    (forall rid, out = Returned rid -> map x_name xs = expansion fuel reg name).
Proof.
  induction fuel as [| fuel IH]; intros name E w out w' Hno H; [discriminate |].
  simpl in H. destruct (or_new_set E w) as [e w0] eqn:E0.
  destruct (or_new_set_frame _ _ _ _ E0) as (Ht & Hl & _ & Hu & Hc & He & _).
  assert (F0 : follows w [] w0) by now apply follows_refl.
  assert (Hnil : deref (sets w0) e = []).
  { destruct (or_new_set_cases _ _ _ _ E0) as [(-> & T & ->) | (-> & -> & _)].
    - simpl in Hno. rewrite Hno in T. discriminate.
    - simpl. unfold deref. rewrite app_nth2, Nat.sub_diag by lia. reflexivity. }
  rewrite Hnil in H. simpl in H.
  destruct (dict_get reg name) as [task |] eqn:G.
  2:{ injection H as <- <-. exists []. simpl. rewrite G.
      split; [assumption |]. split; [apply prefix_of_refl | discriminate]. }
  assert (Hloop : forall deps w1 r w2,
            deref (sets w1) e = [] -> e < List.length (sets w1) ->
            for_each_dep (run_task fuel reg) deps e w1 = Some (r, w2) ->
            exists xs, follows w1 xs w2 /\
              prefix_of (map x_name xs) (flat_map (expansion fuel reg) deps) /\
              (r = None ->
               map x_name xs = flat_map (expansion fuel reg) deps)).
  { induction deps as [| dep rest IHd]; intros w1 r w2 Hn1 He1 HL; simpl in HL.
    - injection HL as <- <-. exists []. simpl.
      split; [now apply follows_refl |].
      split; [apply prefix_of_refl | reflexivity].
    - destruct (run_task fuel reg dep (Some e) w1) as [[[rid | x] w1'] |] eqn:Ed;
        try discriminate.
      + destruct (IH dep (Some e) w1 _ _ Hn1 Ed) as (xs1 & Hf1 & _ & Heq1).
        destruct (run_task_sets_frame _ _ _ _ _ _ _ Ed) as [Hlen Hfr].
        assert (Hn2 : deref (sets w1') e = []).
        { rewrite Hfr; auto. intros _. now rewrite Hn1. }
        destruct (IHd _ _ _ Hn2 ltac:(lia) HL) as (xs2 & Hf2 & Hp2 & Heq2).
        exists (xs1 ++ xs2). rewrite map_app, (Heq1 _ eq_refl). simpl.
        split; [eapply follows_trans; eassumption |].
        split; [now apply prefix_of_app_l |].
        intros Hr. now rewrite (Heq2 Hr).
      + injection HL as <- <-.
        destruct (IH dep (Some e) w1 _ _ Hn1 Ed) as (xs1 & Hf1 & Hp1 & _).
        exists xs1. simpl. split; [assumption |].
        split; [now apply prefix_of_app_r | discriminate]. }
  destruct (for_each_dep (run_task fuel reg) (dependencies task) e w0)
    as [[[x |] w1] |] eqn:L; try discriminate.
  - injection H as <- <-.
    destruct (Hloop _ _ _ _ Hnil He L) as (xs & Hf & Hp & _).
    exists xs. simpl. rewrite G.
    split; [apply (follows_trans _ _ _ _ _ F0 Hf) |].
    split; [now apply prefix_of_app_r | discriminate].
  - destruct (Hloop _ _ _ _ Hnil He L) as (xs & Hf & _ & Heq).
    pose proof (follows_run_body name task e w1) as Hb.
    destruct (run_body name task e w1) as [o wb]. injection H as <- <-.
    simpl in Hb. exists (xs ++ [execution_at name task w1]).
    assert (Hnames : map x_name (xs ++ [execution_at name task w1])
                     = expansion (S fuel) reg name).
    { simpl. rewrite G, map_app, (Heq eq_refl). reflexivity. }
    split; [apply (follows_trans _ _ _ _ _ F0); eapply follows_trans; eassumption |].
    split; [rewrite Hnames; apply prefix_of_refl |].
    intros _ _. exact Hnames.
Qed.

Lemma body_calls_events (name : string) xs :
  body_calls name (events_of xs)
  = count_occ string_dec (map x_name xs) name.
Proof.
  induction xs as [| x xs IH]; [reflexivity |].
  change (events_of (x :: xs)) with (execution_events x ++ events_of xs).
  unfold body_calls in *. rewrite filter_app, length_app, IH.
  simpl. destruct (string_dec (x_name x) name) as [-> | Hne].
  - now rewrite String.eqb_refl.
  - destruct (String.eqb_spec (x_name x) name); [contradiction | reflexivity].
Qed.

(** X3. A call that is given no set, or an empty one, skips nothing: it
    goes through the whole tree of dependencies of the task, a task as
    often as it occurs in the tree, up to the first exception.  When the
    call returns, the body of each task has been called as many times as
    the task occurs in the tree, and as many records were added for it. *)
Theorem run_without_set_runs_whole_tree reg rank fuel name E w :
  well_ranked reg rank -> rank name < fuel -> no_set_yet E w ->
  exists out w' xs,
    run_task fuel reg name E w = Some (out, w') /\
    log w' = log w ++ events_of xs /\
    map task_name (rows_since w w') = map x_name xs /\
    prefix_of (map x_name xs) (expansion fuel reg name) /\
    (forall rid, out = Returned rid ->
       map x_name xs = expansion fuel reg name /\
       forall other,
         body_calls other (events_of xs)
         = count_occ string_dec (expansion fuel reg name) other).
Proof.
  intros Hrank Hfuel Hno.
  destruct (run_task_terminates reg rank Hrank fuel name E w Hfuel) as (out & w' & H).
  destruct (run_task_no_set_yet _ _ _ _ _ _ _ Hno H) as (xs & Hf & Hp & Heq).
  exists out, w', xs. split; [assumption |]. split; [apply Hf |].
  split; [apply (follows_records _ _ _ Hf) |]. split; [assumption |].
  intros rid Hr. split; [now apply Heq with rid |].
  intros other. rewrite body_calls_events. now rewrite (Heq rid Hr).
Qed.


(** ** A run that is given a set that is not empty *)

Lemma succeeded_returned x :
  succeeded x = true <-> execution_outcome x = Returned (x_run_id x).
Proof.
  unfold succeeded. split.
  - destruct (execution_outcome x) eqn:E; [| discriminate].
    intros _. f_equal. now apply execution_outcome_returned.
  - now intros ->.
Qed.

(** Before a call or a loop is through, nothing it executed has raised. *)
Lemma trace_all_succeeded reg :
  (forall name xs out, call_trace reg name xs out ->
     forall rid, out = Returned rid -> filter succeeded xs = xs) /\
  (forall deps xs r, loop_trace reg deps xs r ->
     r = None -> filter succeeded xs = xs).
Proof.
  apply call_loop_trace_ind; try discriminate; auto.
  - intros name task xs x G _ IH Hn rid Ho.
    rewrite filter_app, (IH eq_refl). simpl.
    assert (Hs : succeeded x = true) by (unfold succeeded; now rewrite Ho).
    now rewrite Hs.
  - intros dep rest xs rid xs' r _ IH _ IH' Hr.
    now rewrite filter_app, (IH rid eq_refl), (IH' Hr).
Qed.

Lemma truthy_app (s s' : pyset) : truthy s = true -> truthy (s ++ s') = true.
Proof. destruct s; [discriminate | reflexivity]. Qed.

Lemma run_task_with_set reg rank fuel : well_ranked reg rank ->
  forall name (a : ref) w out w',
  truthy (deref (sets w) a) = true ->
  run_task fuel reg name (Some a) w = Some (out, w') ->
  exists xs, follows w xs w' /\ call_trace reg name xs out /\
    deref (sets w') a = deref (sets w) a ++ map x_name (filter succeeded xs) /\
    (forall x, In x xs -> ~ In (x_name x) (deref (sets w) a)) /\
    NoDup (map x_name xs).
Proof.
  intros Hrank.
  induction fuel as [| fuel IH]; intros name a w out w' T H; [discriminate |].
  simpl in H. unfold or_new_set in H. rewrite T in H.
  destruct (contains name (deref (sets w) a)) eqn:C.
  { injection H as <- <-. exists []. simpl. rewrite app_nil_r.
    split; [now apply follows_refl |]. split; [constructor |].
    split; [reflexivity |]. split; [intros x [] | constructor]. }
  destruct (dict_get reg name) as [task |] eqn:G.
  2:{ injection H as <- <-. exists []. simpl. rewrite app_nil_r.
      split; [now apply follows_refl |]. split; [now constructor |].
      split; [reflexivity |]. split; [intros x [] | constructor]. }
  assert (Hloop : forall deps w1 r w2,
            truthy (deref (sets w1) a) = true ->
            for_each_dep (run_task fuel reg) deps a w1 = Some (r, w2) ->
            exists xs, follows w1 xs w2 /\ loop_trace reg deps xs r /\
              deref (sets w2) a
              = deref (sets w1) a ++ map x_name (filter succeeded xs) /\
              (forall x, In x xs -> ~ In (x_name x) (deref (sets w1) a)) /\
              NoDup (map x_name xs)).
  { induction deps as [| dep rest IHd]; intros w1 r w2 T1 HL; simpl in HL.
    - injection HL as <- <-. exists []. simpl. rewrite app_nil_r.
      split; [now apply follows_refl |]. split; [constructor |].
      split; [reflexivity |]. split; [intros x [] | constructor].
    - destruct (run_task fuel reg dep (Some a) w1) as [[[rid | x] w1'] |] eqn:Ed;
        try discriminate.
      + destruct (IH _ _ _ _ _ T1 Ed) as (xs1 & Hf1 & Hc1 & Hs1 & Hd1 & Hn1).
        rewrite (proj1 (trace_all_succeeded reg) _ _ _ Hc1 rid eq_refl) in Hs1.
        assert (T2 : truthy (deref (sets w1') a) = true)
          by (rewrite Hs1; now apply truthy_app).
        destruct (IHd _ _ _ T2 HL) as (xs2 & Hf2 & Hc2 & Hs2 & Hd2 & Hn2).
        exists (xs1 ++ xs2).
        split; [eapply follows_trans; eassumption |].
        split; [econstructor; eassumption |].
        rewrite filter_app, map_app,
          (proj1 (trace_all_succeeded reg) _ _ _ Hc1 rid eq_refl).
        split; [now rewrite Hs2, Hs1, app_assoc |]. split.
        * intros x Hx. apply in_app_or in Hx. destruct Hx as [Hx | Hx]; auto.
          intros Hin. apply (Hd2 x Hx). rewrite Hs1. apply in_or_app. now left.
        * rewrite map_app. apply NoDup_app; auto. intros n Hn Hn'.
          apply in_map_iff in Hn'. destruct Hn' as (x & <- & Hx).
          apply (Hd2 x Hx). rewrite Hs1. apply in_or_app. now right.
      + injection HL as <- <-.
        destruct (IH _ _ _ _ _ T1 Ed) as (xs1 & Hf1 & Hc1 & Hs1 & Hd1 & Hn1).
        exists xs1. split; [assumption |]. split; [now constructor |]. auto. }
  destruct (for_each_dep (run_task fuel reg) (dependencies task) a w)
    as [[[x |] w1] |] eqn:L; try discriminate.
  - injection H as <- <-.
    destruct (Hloop _ _ _ _ T L) as (xs & Hf & Hc & Hs & Hd & Hn).
    exists xs. split; [assumption |]. split; [econstructor; eassumption |]. auto.
  - destruct (Hloop _ _ _ _ T L) as (xs & Hf & Hc & Hs & Hd & Hn).
    rewrite (proj2 (trace_all_succeeded reg) _ _ _ Hc eq_refl) in Hs.
    assert (Hfresh : ~ In name (map x_name xs)).
    { intros Hin. apply in_map_iff in Hin. destruct Hin as (y & Hy & Hin).
      pose proof (proj2 (trace_rank reg rank Hrank) _ _ _ Hc (rank name)
                    (Hrank _ _ G) y Hin) as Hlt.
      rewrite Hy in Hlt. lia. }
    assert (Hnot : contains name (deref (sets w1) a) = false).
    { destruct (contains name (deref (sets w1) a)) eqn:C1; [| reflexivity].
      apply contains_In in C1. rewrite Hs in C1. apply in_app_or in C1.
      destruct C1 as [C1 | C1]; [| contradiction].
      apply contains_In in C1. congruence. }
    assert (Hvalid : a < List.length (sets w1)).
    { apply truthy_deref_valid. rewrite Hs. now apply truthy_app. }
    destruct (run_body_spec name task a w1) as (Ho & _ & _ & _ & _ & _ & Hsets).
    pose proof (follows_run_body name task a w1) as Hb.
    set (own := execution_at name task w1) in *.
    destruct (run_body name task a w1) as [o wb]. injection H as <- <-.
    simpl in Ho, Hb, Hsets. subst o.
    exists (xs ++ [own]).
    split; [eapply follows_trans; eassumption |].
    split; [econstructor; eauto |].
    rewrite filter_app, map_app,
      (proj2 (trace_all_succeeded reg) _ _ _ Hc eq_refl).
    split; [| split].
    + rewrite Hsets. simpl. unfold succeeded.
      destruct (execution_outcome own); simpl.
      * rewrite deref_assign_same by assumption.
        unfold add. rewrite Hnot, Hs. now rewrite app_assoc.
      * now rewrite app_nil_r.
    + intros x Hx. apply in_app_or in Hx. destruct Hx as [Hx | [<- | []]]; auto.
      simpl. intros Hin. apply contains_In in Hin. congruence.
    + rewrite map_app. simpl.
      apply NoDup_app; auto; [repeat constructor; intros [] |].
      intros n Hn' [<- | []]. contradiction.
Qed.

(** X5. A call that is given a set that is not empty runs each task at
    most once and runs no task whose name is in that set: the names it
    executes are pairwise distinct and none was in the set, and the set
    ends with exactly the names whose execution succeeded added to it, in
    the order they were executed. *)
Theorem run_with_set_runs_once reg rank fuel name (a : ref) w :
  well_ranked reg rank -> rank name < fuel ->
  truthy (deref (sets w) a) = true ->
  exists out w' xs,
    run_task fuel reg name (Some a) w = Some (out, w') /\
    log w' = log w ++ events_of xs /\
    map task_name (rows_since w w') = map x_name xs /\
    NoDup (map x_name xs) /\
    (forall x, In x xs -> ~ In (x_name x) (deref (sets w) a)) /\
    deref (sets w') a = deref (sets w) a ++ map x_name (filter succeeded xs).
Proof.
  intros Hrank Hfuel T.
  destruct (run_task_terminates reg rank Hrank fuel name (Some a) w Hfuel)
    as (out & w' & H).
  destruct (run_task_with_set reg rank fuel Hrank _ _ _ _ _ T H)
    as (xs & Hf & _ & Hs & Hd & Hn).
  exists out, w', xs. split; [assumption |]. split; [apply Hf |].
  split; [apply (follows_records _ _ _ Hf) |]. auto.
Qed.


(** ** The bodies a run calls *)

Lemma threaded_app reg xs : forall (s s1 s2 : Ext) ys,
  threaded reg s xs s1 -> threaded reg s1 ys s2 -> threaded reg s (xs ++ ys) s2.
Proof.
  induction xs as [| x xs IH]; intros s s1 s2 ys H1 H2; simpl in *.
  - now subst.
  - destruct H1 as (task & G & Hr & H1). exists task. eauto.
Qed.

Lemma run_task_threaded reg fuel : forall name E w out w',
  run_task fuel reg name E w = Some (out, w') ->
  exists xs, follows w xs w' /\ threaded reg (ext w) xs (ext w').
Proof.
  induction fuel as [| fuel IH]; intros name E w out w' H; [discriminate |].
  simpl in H. destruct (or_new_set E w) as [e w0] eqn:E0.
  destruct (or_new_set_frame _ _ _ _ E0) as (Ht & Hl & Hx & Hu & Hc & _).
  assert (F0 : follows w [] w0) by now apply follows_refl.
  assert (Hloop : forall deps w1 r w2,
            for_each_dep (run_task fuel reg) deps e w1 = Some (r, w2) ->
            exists xs, follows w1 xs w2 /\ threaded reg (ext w1) xs (ext w2)).
  { induction deps as [| dep rest IHd]; intros w1 r w2 HL; simpl in HL.
    - injection HL as <- <-. exists []. split; [now apply follows_refl | reflexivity].
    - destruct (run_task fuel reg dep (Some e) w1) as [[[rid | x] w1'] |] eqn:Ed;
        try discriminate.
      + destruct (IH _ _ _ _ _ Ed) as (xs1 & Hf1 & Ht1).
        destruct (IHd _ _ _ HL) as (xs2 & Hf2 & Ht2).
        exists (xs1 ++ xs2). split; [eapply follows_trans; eassumption |].
        eapply threaded_app; eassumption.
      + injection HL as <- <-. eauto. }
  destruct (contains name (deref (sets w0) e)).
  { injection H as <- <-. exists []. split; [assumption | exact Hx]. }
  destruct (dict_get reg name) as [task |] eqn:G.
  2:{ injection H as <- <-. exists []. split; [assumption | exact Hx]. }
  destruct (for_each_dep (run_task fuel reg) (dependencies task) e w0)
    as [[[x |] w1] |] eqn:L; try discriminate.
  - injection H as <- <-. destruct (Hloop _ _ _ _ L) as (xs & Hf & Hth).
    exists xs. split; [apply (follows_trans _ _ _ _ _ F0 Hf) |]. now rewrite <- Hx.
  - destruct (Hloop _ _ _ _ L) as (xs & Hf & Hth).
    destruct (run_body_spec name task e w1) as (_ & _ & _ & Hext & _).
    pose proof (follows_run_body name task e w1) as Hb.
    destruct (run_body name task e w1) as [o wb]. injection H as <- <-.
    simpl in Hext, Hb. exists (xs ++ [execution_at name task w1]). split.
    + apply (follows_trans _ _ _ _ _ F0). eapply follows_trans; eassumption.
    + rewrite <- Hx. eapply threaded_app; [exact Hth |].
      simpl. exists task. repeat split; auto.
Qed.

(** X6. What a run records as the result of an execution is what the body
    registered under that name gave, called on the outside state the
    execution before it left; and the outside state after the run is what
    the last body left: the registry calls the bodies one after the other
    and does nothing else to the outside state. *)
Theorem run_calls_registered_bodies reg rank fuel name E w :
  well_ranked reg rank -> rank name < fuel ->
  exists out w' xs,
    run_task fuel reg name E w = Some (out, w') /\
    log w' = log w ++ events_of xs /\
    threaded reg (ext w) xs (ext w').
Proof.
  intros Hrank Hfuel.
  destruct (run_task_terminates reg rank Hrank fuel name E w Hfuel) as (out & w' & H).
  destruct (run_task_threaded _ _ _ _ _ _ _ H) as (xs & Hf & Hth).
  exists out, w', xs. split; [assumption |]. split; [apply Hf | assumption].
Qed.

(** ** How a call can end *)

Lemma execution_outcome_raised x e :
  execution_outcome x = Raised e ->
  (l_status (try_clause (x_result x)) = FAILED /\
   e = RuntimeError (failed_message (x_name x) (x_run_id x))) \/
  (exists exc, e = Uncaught exc /\ is_Exception exc = false /\
     l_status (try_clause (x_result x)) = SUCCESS /\
     (x_result x = BodyRaises exc \/
      exists v, x_result x = BodyReturns (Some v) /\ json_dumps v = inl exc)).
Proof.
  unfold execution_outcome, try_clause, except_clause.
  destruct (x_result x) as [[v |] | exc]; simpl.
  - destruct (json_dumps v) as [exc | text] eqn:J; simpl; [| discriminate].
    destruct (is_Exception exc) eqn:I; simpl; intros [= <-]; [now left |].
    right. exists exc. repeat split; auto. right. now exists v.
  - discriminate.
  - destruct (is_Exception exc) eqn:I; simpl; intros [= <-]; [now left |].
    right. exists exc. repeat split; auto.
Qed.

Lemma trace_outcome reg :
  (forall name xs out, call_trace reg name xs out ->
     match out with
     | Returned rid =>
         (xs = [] /\ rid = "") \/
         (exists before x, xs = before ++ [x] /\ x_name x = name /\
            execution_outcome x = Returned rid)
     | Raised e =>
         (exists missing, (missing = name \/ reaches reg name missing) /\
            dict_get reg missing = None /\
            e = KeyError (unknown_message missing)) \/
         (exists before x, xs = before ++ [x] /\ execution_outcome x = Raised e)
     end) /\
  (forall deps xs r, loop_trace reg deps xs r ->
     forall e, r = Some e ->
       (exists dep missing, In dep deps /\
          (missing = dep \/ reaches reg dep missing) /\
          dict_get reg missing = None /\
          e = KeyError (unknown_message missing)) \/
       (exists before x, xs = before ++ [x] /\ execution_outcome x = Raised e)).
Proof.
  apply call_loop_trace_ind.
  - intros name. now left.
  - intros name G. left. exists name. auto.
  - intros name task xs e G _ IH.
    destruct (IH e eq_refl) as [(dep & missing & Hin & Hreach & Hnone & ->) | Hlast];
      [left | now right].
    exists missing. repeat split; auto. right.
    assert (Hd : depends reg name dep) by now exists task.
    destruct Hreach as [-> | Hreach];
      [now apply reaches_step | eapply reaches_more; eassumption].
  - intros name task xs x G _ _ Hn.
    destruct (execution_outcome x) eqn:Ho; right; exists xs, x; auto.
  - discriminate.
  - intros dep rest xs e _ IH e' [= <-]. simpl in IH.
    destruct IH as [(missing & Hreach & Hnone & ->) | Hlast]; [left | now right].
    exists dep, missing. repeat split; auto. now left.
  - intros dep rest xs rid xs' r _ _ _ IH e ->.
    destruct (IH e eq_refl) as [(d & missing & Hin & Hrest) | (before & x & -> & Ho)].
    + left. exists d, missing. split; [now right | exact Hrest].
    + right. exists (xs ++ before), x. now rewrite app_assoc.
Qed.

(** X7. The ways a call ends.  If it raises, the exception is a
    [KeyError] for a name that is not registered, the name asked for or
    one reached along dependencies; or the [RuntimeError] of the last
    execution, whose record is FAILED; or an exception that is not an
    [Exception], raised by the body or by [json.dumps] in the last
    execution, whose record is SUCCESS.  If it returns, it returns the
    empty text without executing anything, or the identifier of the
    record of the task asked for, which is the last one and is SUCCESS. *)
Theorem run_task_outcomes reg rank fuel name E w :
  well_ranked reg rank -> rank name < fuel ->
  exists out w' xs,
    run_task fuel reg name E w = Some (out, w') /\
    log w' = log w ++ events_of xs /\
    match out with
    | Returned rid =>
        (xs = [] /\ rid = "") \/
        (exists before x, xs = before ++ [x] /\ x_name x = name /\
           rid = x_run_id x /\ In (execution_row x) (task_runs w') /\
           status (execution_row x) = SUCCESS)
    | Raised e =>
        (exists missing, (missing = name \/ reaches reg name missing) /\
           dict_get reg missing = None /\
           e = KeyError (unknown_message missing)) \/
        (exists before x, xs = before ++ [x] /\
           In (execution_row x) (task_runs w') /\
           ((status (execution_row x) = FAILED /\
             e = RuntimeError (failed_message (x_name x) (x_run_id x))) \/
            (status (execution_row x) = SUCCESS /\
             exists exc, e = Uncaught exc /\ is_Exception exc = false)))
    end.
Proof.
  intros Hrank Hfuel.
  destruct (run_task_terminates reg rank Hrank fuel name E w Hfuel) as (out & w' & H).
  destruct (run_task_trace _ _ _ _ _ _ _ H) as (xs & Hf & Hct).
  exists out, w', xs. split; [assumption |]. split; [apply Hf |].
  pose proof (proj1 (trace_outcome reg) _ _ _ Hct) as Ho.
  destruct out as [rid | e].
  - destruct Ho as [Hskip | (before & x & -> & Hn & Ho)]; [now left | right].
    exists before, x. pose proof (execution_outcome_returned _ _ Ho) as ->.
    repeat split; auto; [now apply follows_last_row in Hf |].
    unfold execution_row. simpl. unfold execution_outcome in Ho.
    destruct (try_clause_terminal (x_result x)) as [Hs | Hs]; [assumption |].
    rewrite (try_clause_failed _ Hs), Hs in Ho. discriminate.
  - destruct Ho as [Hmiss | (before & x & -> & Ho)]; [now left | right].
    exists before, x. split; [reflexivity |].
    split; [now apply follows_last_row in Hf |].
    apply execution_outcome_raised in Ho.
    destruct Ho as [[Hs ->] | (exc & -> & Hexc & Hs & _)]; [left | right]; simpl; eauto.
Qed.


(** ** The table only grows *)

Lemma update_run_absent done st art err rid (t : table) :
  ~ In rid (map run_id t) -> update_run done st art err rid t = t.
Proof.
  intros Hnot. unfold update_run. rewrite <- (map_id t) at 2.
  apply map_ext_in. intros r Hr. unfold update_row.
  destruct (String.eqb_spec (run_id r) rid) as [<- | Hne]; [| reflexivity].
  exfalso. apply Hnot. now apply in_map.
Qed.

Lemma replay_execution_fresh x (t : table) :
  ~ In (x_run_id x) (map run_id t) ->
  replay (execution_events x) t = t ++ [execution_row x].
Proof.
  intros Hnot. rewrite replay_execution. unfold update_run, insert_run.
  rewrite map_app. fold (update_run (wall_clock (S (x_clock x)))
    (l_status (try_clause (x_result x))) (l_artifacts (try_clause (x_result x)))
    (l_error (try_clause (x_result x))) (x_run_id x) t).
  rewrite update_run_absent by assumption. f_equal. simpl.
  unfold update_row. simpl. now rewrite String.eqb_refl.
Qed.

Lemma numbered_ids xs : forall u k,
  numbered u k xs ->
  forall x, In x xs ->
    exists i, u <= i < u + List.length xs /\ x_run_id x = uuid4_hex i.
Proof.
  induction xs as [| x xs IH]; intros u k Hn y Hy; [contradiction |].
  destruct Hn as (Hid & _ & Hn). destruct Hy as [<- | Hy].
  - exists u. simpl. split; [lia | assumption].
  - destruct (IH _ _ Hn y Hy) as (i & Hi & Hyi). exists i. simpl. split; [lia | assumption].
Qed.

Lemma replay_fresh xs : forall (t : table) u k,
  (forall i j, uuid4_hex i = uuid4_hex j -> i = j) ->
  numbered u k xs ->
  (forall i, u <= i -> ~ In (uuid4_hex i) (map run_id t)) ->
  replay (events_of xs) t = t ++ map execution_row xs.
Proof.
  induction xs as [| x xs IH]; intros t u k Hinj Hn Hfresh.
  - simpl. now rewrite app_nil_r.
  - destruct Hn as (Hid & Hk & Hn).
    change (events_of (x :: xs)) with (execution_events x ++ events_of xs).
    rewrite replay_app, replay_execution_fresh
      by (rewrite Hid; apply Hfresh; lia).
    rewrite (IH _ (S u) (S (S k)) Hinj Hn).
    + simpl. now rewrite <- app_assoc.
    + intros i Hi. rewrite map_app, in_app_iff. simpl. intros [Hin | [Heq | []]].
      * apply (Hfresh i); [lia | assumption].
      * rewrite Hid in Heq. apply Hinj in Heq. lia.
Qed.

(** X8. Where no two draws of [uuid4] coincide and none of those still to
    come is in the table, a run leaves every record that was there as it
    was and adds, at the end and in the order of execution, one finalized
    record for each execution; and the same holds of the table it leaves
    for the runs after it. *)
Theorem run_appends_records reg rank fuel name E w :
  (forall i j, uuid4_hex i = uuid4_hex j -> i = j) ->
  ids_fresh w ->
  well_ranked reg rank -> rank name < fuel ->
  exists out w' xs,
    run_task fuel reg name E w = Some (out, w') /\
    log w' = log w ++ events_of xs /\
    task_runs w' = task_runs w ++ map execution_row xs /\
    ids_fresh w'.
Proof.
  intros Hinj Hfresh Hrank Hfuel.
  destruct (run_task_terminates reg rank Hrank fuel name E w Hfuel) as (out & w' & H).
  destruct (run_task_trace _ _ _ _ _ _ _ H) as (xs & Hf & _).
  exists out, w', xs. split; [assumption |].
  destruct Hf as (Hlog & Ht & Hnum & Hu & _). split; [assumption |].
  assert (Htable : task_runs w' = task_runs w ++ map execution_row xs).
  { rewrite Ht. eapply replay_fresh; eauto. }
  split; [assumption |].
  intros k Hk. rewrite Htable, map_app, in_app_iff. intros [Hin | Hin].
  - apply (Hfresh k); [lia | assumption].
  - rewrite map_map in Hin. apply in_map_iff in Hin.
    destruct Hin as (x & Hx & Hin). simpl in Hx.
    destruct (numbered_ids _ _ _ Hnum x Hin) as (i & Hi & Hxi).
    rewrite Hxi in Hx. apply Hinj in Hx. lia.
Qed.


(** ** The command line *)

Lemma print_tasks_registered reg (names : list string) :
  (forall n, In n names -> dict_get reg n <> None) ->
  exists lines,
    print_tasks reg names = (lines, None) /\
    Forall2 (fun n line => exists meta, get reg n = Some meta /\
               line = Line (n ++ ": " ++ description meta)%string)
            names lines.
Proof.
  induction names as [| n names IH]; intros Hreg; simpl.
  - exists []. split; [reflexivity | constructor].
  - destruct (IH (fun m Hm => Hreg m (or_intror Hm))) as (lines & -> & HF).
    unfold get in *. destruct (dict_get reg n) as [meta |] eqn:G.
    + eexists. split; [reflexivity |]. constructor; [| exact HF].
      exists meta. now rewrite G.
    + exfalso. apply (Hreg n); [now left | assumption].
Qed.

(** X9. [cli.list_tasks] never raises the [KeyError] of [registry.get]:
    it prints one line for each key of the registry, in ascending order of
    the names, made of the name, a colon and the description the task has
    in the registry. *)
Theorem cli_list_tasks_prints_all reg :
  exists lines,
    cli_list_tasks reg = (lines, None) /\
    StronglySorted str_le (list_tasks reg) /\
    Permutation (keys reg) (list_tasks reg) /\
    Forall2 (fun n line => exists meta, get reg n = Some meta /\
               line = Line (n ++ ": " ++ description meta)%string)
            (list_tasks reg) lines.
Proof.
  destruct (print_tasks_registered reg (list_tasks reg)) as (lines & Hp & HF).
  { intros n Hn. apply dict_get_In. eapply Permutation_in; [| exact Hn].
    symmetry. apply sorted_perm. }
  exists lines. split; [exact Hp |].
  split; [apply sorted_sorted |]. split; [apply sorted_perm | exact HF].
Qed.

Lemma replay_execution_last x (t : table) :
  exists t', replay (execution_events x) t = t' ++ [execution_row x].
Proof.
  rewrite replay_execution. unfold update_run, insert_run. rewrite map_app.
  eexists. f_equal. simpl. unfold update_row. simpl. now rewrite String.eqb_refl.
Qed.

Lemma execution_returned_success x rid :
  execution_outcome x = Returned rid -> status (execution_row x) = SUCCESS.
Proof.
  intros Ho. unfold execution_row. simpl. unfold execution_outcome in Ho.
  destruct (try_clause_terminal (x_result x)) as [Hs | Hs]; [assumption |].
  rewrite (try_clause_failed _ Hs), Hs in Ho. discriminate.
Qed.

Lemma run_task_top_returned reg fuel name w rid w' :
  run_task fuel reg name None w = Some (Returned rid, w') ->
  exists t row,
    task_runs w' = t ++ [row] /\
    run_id row = rid /\ task_name row = name /\ status row = SUCCESS /\
    (exists done, completed_at row = Some done) /\
    dict_get reg name <> None.
Proof.
  destruct fuel as [| fuel]; [discriminate |]. simpl.
  assert (Hnew : deref (sets w ++ [[]]) (List.length (sets w)) = []).
  { unfold deref. rewrite app_nth2, Nat.sub_diag by lia. reflexivity. }
  rewrite Hnew. simpl.
  destruct (dict_get reg name) as [task |] eqn:G; [| discriminate].
  destruct (for_each_dep _ _ _ _) as [[[x |] w1] |]; try discriminate.
  intros H.
  destruct (run_body_spec name task (List.length (sets w)) w1)
    as (Ho & _ & Ht & _).
  destruct (run_body name task _ w1) as [o wb]. injection H as -> ->.
  simpl in Ho, Ht. symmetry in Ho.
  destruct (replay_execution_last (execution_at name task w1) (task_runs w1))
    as (t & Hlast).
  exists t, (execution_row (execution_at name task w1)).
  split; [now rewrite Ht |].
  split; [symmetry; now apply execution_outcome_returned in Ho |].
  split; [reflexivity |].
  split; [now apply execution_returned_success with rid |].
  split; [eexists; reflexivity | discriminate].
Qed.

(** X10. [cli.run_task] prints only when [registry.run_task] returned,
    and then one JSON object with the name of the task and a run
    identifier that is never the empty text of the skipped call: it is the
    identifier of the last record of the table, which is a record of that
    task, finalized as SUCCESS.  When [registry.run_task] raises, nothing
    is printed and the exception goes on to the caller. *)
Theorem cli_run_task_prints_last_record reg rank fuel name w :
  well_ranked reg rank -> rank name < fuel ->
  exists out exc w',
    cli_run_task fuel reg name w = Some (out, exc, w') /\
    match exc with
    | Some e =>
        out = [] /\ run_task fuel reg name None w = Some (Raised e, w')
    | None =>
        exists t row,
          out = [JsonObject [("task", name); ("run_id", run_id row)]] /\
          task_runs w' = t ++ [row] /\
          task_name row = name /\ status row = SUCCESS /\
          (exists done, completed_at row = Some done)
    end.
Proof.
  intros Hrank Hfuel. unfold cli_run_task.
  destruct (run_task_terminates reg rank Hrank fuel name None w Hfuel)
    as (o & w' & H).
  rewrite H. destruct o as [rid | e].
  - exists [JsonObject [("task", name); ("run_id", rid)]], None, w'.
    split; [reflexivity |].
    destruct (run_task_top_returned _ _ _ _ _ _ H)
      as (t & row & Ht & Hid & Hn & Hs & Hd & _).
    exists t, row. rewrite Hid. auto.
  - exists [], (Some e), w'. auto.
Qed.

(** ** The tasks that are registered *)

Lemma check_closed_sound reg a b :
  check_closed reg = true -> reaches reg a b -> dict_get reg b <> None.
Proof.
  unfold check_closed. rewrite forallb_forall. intros Hc Hr.
  assert (Hstep : forall n m, depends reg n m -> dict_get reg m <> None).
  { intros n m (task & G & Hin). apply dict_get_Some_In, Hc in G.
    rewrite forallb_forall in G. apply G in Hin.
    apply dict_get_In. now apply contains_In. }
  induction Hr as [n m Hnm | n m k Hnm Hmk IH]; [now apply Hstep with n | exact IH].
Qed.

(** X11. The tasks of [register_tasks] depend on registered tasks only
    and on no cycle, although "build_ticker_universe" is registered after
    the tasks that depend on it.  So whatever the bodies do, a call of
    [run_task] on the registry of [build_registry] ends, and for a
    registered name it never ends in the [KeyError] of an unknown task. *)
Theorem registered_tasks_always_resolve (b : bodies value Ext) name E w :
  exists out w',
    run_task 7 (build_registry b) name E w = Some (out, w') /\
    (dict_get (build_registry b) name <> None ->
     forall msg, out <> Raised (KeyError msg)).
Proof.
  assert (Hrank : well_ranked (build_registry b) pipeline_rank)
    by (apply check_ranked_sound; reflexivity).
  assert (Hfuel : pipeline_rank name < 7).
  { unfold pipeline_rank.
    repeat match goal with |- context [String.eqb ?a ?c] =>
             destruct (String.eqb a c) end; lia. }
  destruct (run_task_terminates _ _ Hrank 7 name E w Hfuel) as (out & w' & H).
  exists out, w'. split; [assumption |].
  intros Hreg msg ->.
  destruct (run_task_trace _ _ _ _ _ _ _ H) as (xs & _ & Hct).
  destruct (proj1 (trace_outcome _) _ _ _ Hct)
    as [(missing & Hm & Hnone & _) | (before & x & _ & Ho)].
  - destruct Hm as [-> | Hreach]; [contradiction |].
    now apply (check_closed_sound (build_registry b) name missing).
  - apply execution_outcome_raised in Ho.
    destruct Ho as [[_ [=]] | (exc & [=] & _)].
Qed.

(** X12. A call [run_task("trading_cycle_intraday")] without a set, as
    the command line makes it, goes through the tasks of the pipeline in
    this order, up to the first exception: the universe is refreshed
    before the market data and once more before the news. *)
Theorem pipeline_order (b : bodies value Ext) w :
  exists out w' xs,
    run_task 7 (build_registry b) "trading_cycle_intraday" None w
      = Some (out, w') /\
    log w' = log w ++ events_of xs /\
    prefix_of (map x_name xs)
      [ "build_ticker_universe"; "ingest_market_daily";
        "build_ticker_universe"; "ingest_news_hourly";
        "build_features_daily"; "run_predictions_daily";
        "validate_predictions_daily"; "feedback_daily";
        "trading_cycle_intraday" ] /\
    (forall rid, out = Returned rid ->
       body_calls "build_ticker_universe" (events_of xs) = 2 /\
       List.length xs = 9).
Proof.
  assert (Hrank : well_ranked (build_registry b) pipeline_rank)
    by (apply check_ranked_sound; reflexivity).
  destruct (run_task_terminates _ _ Hrank 7 "trading_cycle_intraday" None w
              ltac:(vm_compute; lia)) as (out & w' & H).
  destruct (run_task_no_set_yet _ _ _ None _ _ _ I H) as (xs & Hf & Hp & Heq).
  exists out, w', xs. split; [assumption |]. split; [apply Hf |].
  split; [exact Hp |].
  intros rid Hr. pose proof (Heq rid Hr) as Hnames.
  split; [rewrite body_calls_events, Hnames; reflexivity |].
  rewrite <- (length_map x_name), Hnames. reflexivity.
Qed.


(** ** The order of a run, and where it stops *)

(** The executions between two worlds are determined by the log. *)
Lemma follows_unique w xs ys w' :
  follows w xs w' -> follows w ys w' -> xs = ys.
Proof.
  intros (Hl1 & _ & Hn1 & _) (Hl2 & _ & Hn2 & _).
  rewrite Hl1 in Hl2. apply app_inv_head in Hl2. clear Hl1.
  revert Hl2 Hn1 Hn2. generalize (uuid_calls w) (clock_reads w). revert ys.
  induction xs as [| x xs IH]; intros [| y ys] u k He Hn1 Hn2;
    try reflexivity; try discriminate.
  destruct Hn1 as (_ & Hk1 & Hn1). destruct Hn2 as (_ & Hk2 & Hn2).
  change (execution_events x ++ events_of xs
          = execution_events y ++ events_of ys) in He.
  destruct x as [n1 r1 k1 b1], y as [n2 r2 k2 b2].
  unfold execution_events in He. simpl in *.
  inversion He. subst. f_equal. eapply IH; eassumption.
Qed.

(** A call that does not find the name in the set, and returns, has
    executed the task last. *)
Lemma run_task_ran reg fuel name E w e w0 rid w' :
  run_task fuel reg name E w = Some (Returned rid, w') ->
  or_new_set E w = (e, w0) ->
  contains name (deref (sets w0) e) = false ->
  exists before x, follows w (before ++ [x]) w' /\ x_name x = name /\
    execution_outcome x = Returned rid.
Proof.
  destruct fuel as [| fuel]; [discriminate |]. simpl. intros H E0 Hc.
  rewrite E0, Hc in H.
  destruct (or_new_set_frame _ _ _ _ E0) as (Ht & Hl & _ & Hu & Hk & _).
  assert (F0 : follows w [] w0) by now apply follows_refl.
  destruct (dict_get reg name) as [task |] eqn:G; [| discriminate].
  destruct (for_each_dep (run_task fuel reg) (dependencies task) e w0)
    as [[[y |] w1] |] eqn:L; try discriminate.
  destruct (for_each_dep_trace reg _ (run_task_trace reg fuel) _ _ _ _ _ L)
    as (xs & Hf & _).
  destruct (run_body_spec name task e w1) as (Ho & _).
  pose proof (follows_run_body name task e w1) as Hb.
  destruct (run_body name task e w1) as [o wb]. injection H as -> <-.
  simpl in Ho, Hb.
  exists xs, (execution_at name task w1).
  split; [| split; [reflexivity | now symmetry]].
  apply (follows_trans _ _ _ _ _ F0). eapply follows_trans; eassumption.
Qed.

(** What the call for one dependency leaves behind when it returns. *)
Lemma call_segment reg rank fuel dep (e : ref) w rid w' :
  well_ranked reg rank ->
  e < List.length (sets w) ->
  run_task fuel reg dep (Some e) w = Some (Returned rid, w') ->
  exists xs, follows w xs w' /\ call_trace reg dep xs (Returned rid) /\
    (if contains dep (deref (sets w) e) then xs = [] else ran_segment dep xs) /\
    deref (sets w') e
    = (if truthy (deref (sets w) e) then deref (sets w) e ++ map x_name xs
       else deref (sets w) e) /\
    e < List.length (sets w').
Proof.
  intros Hrank He H.
  destruct (run_task_trace _ _ _ _ _ _ _ H) as (xs & Hf & Hct).
  destruct (run_task_sets_frame _ _ _ _ _ _ _ H) as [Hlen Hfr].
  exists xs. split; [assumption |]. split; [assumption |].
  split; [| split; [| lia]].
  - destruct (contains dep (deref (sets w) e)) eqn:C.
    + pose proof (contains_truthy _ _ C) as T.
      destruct fuel as [| fuel]; [discriminate |]. simpl in H.
      unfold or_new_set in H. rewrite T, C in H. injection H as _ <-.
      apply (follows_unique _ _ _ _ Hf). now apply follows_refl.
    + destruct (or_new_set (Some e) w) as [e' w0] eqn:E0.
      assert (Hc : contains dep (deref (sets w0) e') = false).
      { destruct (or_new_set_frame _ _ _ _ E0)
          as (_ & _ & _ & _ & _ & _ & [[-> [= ->]] | [_ Hnil]]);
          [exact C | now rewrite Hnil]. }
      destruct (run_task_ran _ _ _ _ _ _ _ _ _ H E0 Hc) as (before & x & Hf' & Hn & Ho).
      rewrite (follows_unique _ _ _ _ Hf Hf').
      exists before, x. repeat split; auto.
      rewrite Ho. f_equal. now apply execution_outcome_returned.
  - destruct (truthy (deref (sets w) e)) eqn:T.
    + destruct (run_task_with_set reg rank fuel Hrank _ _ _ _ _ T H)
        as (xs2 & Hf2 & Hct2 & Hs & _).
      rewrite (proj1 (trace_all_succeeded reg) _ _ _ Hct2 rid eq_refl) in Hs.
      now rewrite (follows_unique _ _ _ _ Hf Hf2).
    + apply Hfr; [assumption |]. intros _. exact T.
Qed.

(** What the loop over the dependencies leaves behind. *)
Lemma loop_segments reg rank fuel (e : ref) :
  well_ranked reg rank ->
  forall deps w r w',
    e < List.length (sets w) ->
    for_each_dep (run_task fuel reg) deps e w = Some (r, w') ->
    match r with
    | None =>
        exists segs, follows w (List.concat segs) w' /\
          loop_trace reg deps (List.concat segs) None /\
          segments (deref (sets w) e) deps segs
    | Some exc =>
        exists done dep rest segs last,
          deps = done ++ dep :: rest /\
          follows w (List.concat segs ++ last) w' /\
          loop_trace reg deps (List.concat segs ++ last) (Some exc) /\
          segments (deref (sets w) e) done segs /\
          call_trace reg dep last (Raised exc)
    end.
Proof.
  intros Hrank. induction deps as [| dep rest IH]; intros w r w' He H; simpl in H.
  - injection H as <- <-. exists []. simpl.
    split; [now apply follows_refl |]. split; [constructor | exact I].
  - destruct (run_task fuel reg dep (Some e) w) as [[[rid | exc] w1] |] eqn:Ed;
      try discriminate.
    + destruct (call_segment _ _ _ _ _ _ _ _ Hrank He Ed)
        as (xs & Hf & Hct & Hseg & Hset & He1).
      specialize (IH _ _ _ He1 H). rewrite Hset in IH. destruct r as [exc |].
      * destruct IH as (done & d & rest' & segs & last & -> & Hf' & Hlt & Hsegs & Hlast).
        exists (dep :: done), d, rest', (xs :: segs), last. simpl.
        rewrite <- app_assoc.
        split; [reflexivity |]. split; [eapply follows_trans; eassumption |].
        split; [econstructor; eassumption |]. auto.
      * destruct IH as (segs & Hf' & Hlt & Hsegs).
        exists (xs :: segs). simpl.
        split; [eapply follows_trans; eassumption |].
        split; [econstructor; eassumption |]. auto.
    + injection H as <- <-.
      destruct (run_task_trace _ _ _ _ _ _ _ Ed) as (xs & Hf & Hct).
      exists [], dep, rest, [], xs. simpl.
      split; [reflexivity |]. split; [assumption |].
      split; [now constructor |]. auto.
Qed.

(** The set a call works on holds what the set it was given holds. *)
Lemma or_new_set_given E w e w0 :
  or_new_set E w = (e, w0) -> deref (sets w0) e = given_set E w.
Proof.
  intros E0.
  destruct (or_new_set_cases _ _ _ _ E0) as [(-> & T & ->) | (-> & -> & Hfalsy)];
    [reflexivity |].
  simpl. unfold deref at 1. rewrite app_nth2, Nat.sub_diag by lia. simpl.
  destruct E as [a |]; [| reflexivity]. simpl.
  specialize (Hfalsy a eq_refl). now destruct (deref (sets w) a).
Qed.

Lemma loop_below reg rank name task :
  well_ranked reg rank -> dict_get reg name = Some task ->
  forall deps ys r, (forall d, In d deps -> In d (dependencies task)) ->
    loop_trace reg deps ys r -> ~ In name (map x_name ys).
Proof.
  intros Hrank G deps ys r Hsub L Hin.
  apply in_map_iff in Hin. destruct Hin as (y & Hy & Hin).
  assert (Hb : forall d, In d deps -> rank d < rank name).
  { intros d Hd. apply (Hrank _ _ G). now apply Hsub. }
  pose proof (proj2 (trace_rank reg rank Hrank) _ _ _ L (rank name) Hb y Hin) as Hlt.
  rewrite Hy in Hlt. lia.
Qed.

(** C2. A call for a registered task that is not in the execution set it
    is given goes through the dependencies in the order they are declared,
    one after the other.  A dependency that is in the set by then leaves
    nothing; every other one leaves a segment of executions that ends with
    its own, which succeeded.  The execution of the task itself, and so
    the insertion of its record and the call of its body, comes after all
    of them; if the call for a dependency raises, the run stops there and
    the task is not executed.  A call for a task that is in the set does
    nothing. *)
Theorem dependencies_run_first reg rank fuel name E w task :
  well_ranked reg rank -> rank name < fuel ->
  dict_get reg name = Some task ->
  exists out w' xs,
    run_task fuel reg name E w = Some (out, w') /\
    log w' = log w ++ events_of xs /\
    map task_name (rows_since w w') = map x_name xs /\
    if contains name (given_set E w) then xs = [] /\ out = Returned ""
    else
      (exists segs own,
         xs = List.concat segs ++ [own] /\
         segments (given_set E w) (dependencies task) segs /\
         x_name own = name /\ ~ In name (map x_name (List.concat segs)) /\
         out = execution_outcome own)
      \/
      (exists done dep rest segs last e,
         dependencies task = done ++ dep :: rest /\
         xs = List.concat segs ++ last /\
         segments (given_set E w) done segs /\
         call_trace reg dep last (Raised e) /\
         ~ In name (map x_name xs) /\
         out = Raised e).
Proof.
  intros Hrank Hfuel G.
  destruct (run_task_terminates reg rank Hrank fuel name E w Hfuel) as (out & w' & H).
  exists out, w'. pose proof H as H'.
  destruct fuel as [| fuel]; [lia |]. simpl in H'.
  destruct (or_new_set E w) as [e w0] eqn:E0.
  destruct (or_new_set_frame _ _ _ _ E0) as (Ht & Hl & _ & Hu & Hk & He & _).
  assert (F0 : follows w [] w0) by now apply follows_refl.
  rewrite (or_new_set_given _ _ _ _ E0) in H'.
  assert (Hdone : forall xs, follows w xs w' ->
            log w' = log w ++ events_of xs /\
            map task_name (rows_since w w') = map x_name xs).
  { intros xs Hf. split; [apply Hf | apply (follows_records _ _ _ Hf)]. }
  destruct (contains name (given_set E w)) eqn:C.
  { injection H' as <- <-. exists []. split; [assumption |].
    destruct (Hdone [] F0). auto. }
  rewrite G in H'.
  destruct (for_each_dep (run_task fuel reg) (dependencies task) e w0)
    as [[[exc |] w1] |] eqn:L; try discriminate.
  - injection H' as <- <-.
    destruct (loop_segments _ _ _ _ Hrank _ _ _ _ He L)
      as (done & dep & rest & segs & last & Hdeps & Hf & Hlt & Hsegs & Hlast).
    rewrite (or_new_set_given _ _ _ _ E0) in Hsegs.
    exists (List.concat segs ++ last). split; [assumption |].
    destruct (Hdone _ (follows_trans _ _ _ _ _ F0 Hf)) as [H1 H2].
    split; [assumption |]. split; [assumption |]. right.
    exists done, dep, rest, segs, last, exc. repeat split; auto.
    eapply loop_below; eauto.
  - destruct (loop_segments _ _ _ _ Hrank _ _ _ _ He L) as (segs & Hf & Hlt & Hsegs).
    rewrite (or_new_set_given _ _ _ _ E0) in Hsegs.
    destruct (run_body_spec name task e w1) as (Ho & _).
    pose proof (follows_run_body name task e w1) as Hb.
    destruct (run_body name task e w1) as [o wb]. injection H' as <- <-.
    simpl in Ho, Hb.
    exists (List.concat segs ++ [execution_at name task w1]).
    split; [assumption |].
    destruct (Hdone _ (follows_trans _ _ _ _ _ F0 (follows_trans _ _ _ _ _ Hf Hb)))
      as [H1 H2].
    split; [assumption |]. split; [assumption |]. left.
    exists segs, (execution_at name task w1). repeat split; auto.
    eapply loop_below; eauto.
Qed.



End MoreRuns.

(** * Configuration *)

Section SettingsFacts.

Import Settings.

Context {leaf : Type}.
Implicit Types (d base override result : Settings.items leaf)
  (v : Settings.cfg leaf).

Lemma lookup_store_same d k v : lookup (store d k v) k = Some v.
Proof.
  induction d as [| [k' v'] d IH]; simpl.
  - now rewrite String.eqb_refl.
  - destruct (String.eqb_spec k' k) as [-> | Hne]; simpl.
    + now rewrite String.eqb_refl.
    + destruct (String.eqb_spec k' k); [contradiction | exact IH].
Qed.

Lemma lookup_store_other d k k' v :
  k' <> k -> lookup (store d k v) k' = lookup d k'.
Proof.
  intros Hne. induction d as [| [k0 v0] d IH]; simpl.
  - destruct (String.eqb_spec k k'); [congruence | reflexivity].
  - destruct (String.eqb_spec k0 k) as [-> | Hne0]; simpl.
    + destruct (String.eqb_spec k k'); [congruence | reflexivity].
    + destruct (String.eqb_spec k0 k'); [reflexivity | exact IH].
Qed.

Lemma lookup_None_keys d k : lookup d k = None <-> ~ In k (map fst d).
Proof.
  induction d as [| [k' v'] d IH]; simpl; [tauto |].
  destruct (String.eqb_spec k' k) as [-> | Hne].
  - split; [discriminate | intros H; exfalso; apply H; now left].
  - rewrite IH. tauto.
Qed.

Lemma store_same d k v : lookup d k = Some v -> store d k v = d.
Proof.
  induction d as [| [k' v'] d IH]; simpl; [discriminate |].
  destruct (String.eqb_spec k' k) as [-> | Hne].
  - now intros [= ->].
  - intros H. now rewrite IH.
Qed.

Lemma merge_loop_fold override : forall result,
  (fix loop (result : Settings.items leaf) (o : Settings.items leaf) {struct o} :=
     match o with
     | [] => result
     | (key, value) :: rest =>
         loop (store result key (merge_value (lookup result key) value)) rest
     end) result override
  = deep_merge result override.
Proof.
  unfold deep_merge.
  induction override as [| [k v] rest IH]; intros result; simpl; [reflexivity |].
  apply IH.
Qed.

Lemma merge_value_dicts base override :
  merge_value (Some (CDict base)) (CDict override)
  = CDict (deep_merge base override).
Proof. simpl. f_equal. apply merge_loop_fold. Qed.

Lemma merge_value_leaf (old : option (Settings.cfg leaf)) v :
  (forall o, v <> CDict o) -> merge_value old v = v.
Proof.
  intros H. destruct v as [| a | o]; destruct old as [[| b | bd] |];
    try reflexivity. now destruct (H o).
Qed.

Lemma lookup_deep_merge override : forall base k,
  NoDup (map fst override) ->
  lookup (deep_merge base override) k
  = match lookup override k with
    | None => lookup base k
    | Some v =>
        match lookup base k, v with
        | Some (CDict b), CDict o => Some (CDict (deep_merge b o))
        | _, _ => Some v
        end
    end.
Proof.
  unfold deep_merge.
  induction override as [| [k0 v0] rest IH]; intros base k Hnd; simpl;
    [reflexivity |].
  inversion Hnd as [| ? ? Hnotin Hnd']; subst.
  rewrite (IH _ k Hnd'). unfold merge_item. simpl fst. simpl snd.
  destruct (String.eqb_spec k0 k) as [-> | Hne].
  - apply lookup_None_keys in Hnotin. rewrite Hnotin, lookup_store_same.
    destruct (lookup base k) as [[| b | bd] |]; destruct v0 as [| a | o];
      try reflexivity.
    now rewrite merge_value_dicts.
  - rewrite lookup_store_other by congruence. reflexivity.
Qed.

(** X13. Looking a key up in the result of [_deep_merge]: a key the
    override does not have keeps the value of the base; a key it has gets
    the value of the override, unless the base and the override both hold
    a dict under it, which are then merged in the same way. *)
Theorem deep_merge_lookup override base k :
  NoDup (map fst override) ->
  lookup (deep_merge base override) k
  = match lookup override k with
    | None => lookup base k
    | Some v =>
        match lookup base k, v with
        | Some (CDict b), CDict o => Some (CDict (deep_merge b o))
        | _, _ => Some v
        end
    end.
Proof. apply lookup_deep_merge. Qed.


Lemma cfg_induction (P : Settings.cfg leaf -> Prop) :
  P CNone -> (forall a, P (CLeaf a)) ->
  (forall d, (forall k v, In (k, v) d -> P v) -> P (CDict d)) ->
  forall v, P v.
Proof.
  intros HN HL HD. fix IH 1. intros [| a | d]; [exact HN | apply HL |].
  apply HD. induction d as [| [k0 v0] d IHd]; intros k v Hin.
  - destruct Hin.
  - destruct Hin as [Heq | Hin].
    + injection Heq as _ <-. apply IH.
    + exact (IHd k v Hin).
Qed.

Lemma well_formed_items d :
  well_formed (CDict d) <->
  NoDup (map fst d) /\ forall k v, In (k, v) d -> well_formed v.
Proof.
  simpl. split; intros [Hnd Hall]; split; try assumption.
  - induction d as [| [k0 v0] d IH]; intros k v Hin; [destruct Hin |].
    destruct Hall as [H0 Hall]. inversion Hnd; subst.
    destruct Hin as [[= <- <-] | Hin]; [assumption | eapply IH; eassumption].
  - induction d as [| [k0 v0] d IH]; [exact I |].
    inversion Hnd; subst. split; [apply (Hall k0); now left |].
    apply IH; [assumption |]. intros k v Hin. apply (Hall k). now right.
Qed.

Lemma lookup_In d k v : lookup d k = Some v -> In (k, v) d.
Proof.
  induction d as [| [k' v'] d IH]; simpl; [discriminate |].
  destruct (String.eqb_spec k' k) as [-> | Hne].
  - intros [= ->]. now left.
  - intros H. right. now apply IH.
Qed.

Lemma In_lookup d k v : NoDup (map fst d) -> In (k, v) d -> lookup d k = Some v.
Proof.
  induction d as [| [k' v'] d IH]; simpl; intros Hnd Hin; [destruct Hin |].
  inversion Hnd as [| ? ? Hnotin Hnd']; subst.
  destruct Hin as [[= -> ->] | Hin]; [now rewrite String.eqb_refl |].
  destruct (String.eqb_spec k' k) as [-> | Hne]; [| now apply IH].
  exfalso. apply Hnotin. change k with (fst (k, v)). now apply in_map.
Qed.

Lemma get_from_leaf_default v : forall keys a default,
  get_from v keys CNone = CLeaf a -> get_from v keys default = CLeaf a.
Proof.
  intros keys. revert v. induction keys as [| k keys IH]; intros v a default H;
    simpl in *; [assumption |].
  destruct v as [| b | d]; try discriminate.
  destruct (lookup d k) as [[| b | d'] |]; try discriminate; now apply IH.
Qed.

Lemma get_deep_merge_leaf keys : forall base override a default,
  well_formed (CDict override) ->
  get override keys CNone = CLeaf a ->
  get (deep_merge base override) keys default = CLeaf a.
Proof.
  unfold get.
  induction keys as [| k keys IH]; intros base override a default Hwf H;
    simpl in *; [discriminate |].
  apply well_formed_items in Hwf. destruct Hwf as [Hnd Hall].
  rewrite (lookup_deep_merge override base k Hnd).
  destruct (lookup override k) as [v |] eqn:L; [| discriminate].
  pose proof (Hall _ _ (lookup_In _ _ _ L)) as Hv.
  destruct v as [| b | o]; try discriminate.
  - destruct (lookup base k) as [[| c | bd] |]; simpl;
      now apply get_from_leaf_default.
  - destruct (lookup base k) as [[| c | bd] |]; simpl;
      try (now apply get_from_leaf_default).
    now apply IH.
Qed.

Lemma replace_cases base override :
  (In "self" (map fst override) /\ replace base override = None) \/
  (~ In "self" (map fst override) /\
   replace base override = Some (deep_merge base override)).
Proof.
  unfold replace.
  destruct (existsb (String.eqb "self") (map fst override)) eqn:B.
  - left. split; [| reflexivity]. apply existsb_exists in B.
    destruct B as (k & Hk & Heq). apply String.eqb_eq in Heq. now subst.
  - right. split; [| reflexivity]. intros Hin.
    assert (B' : existsb (String.eqb "self") (map fst override) = true).
    { apply existsb_exists. exists "self". split; [assumption | apply String.eqb_refl]. }
    congruence.
Qed.

(** X14. What [get] finds after [replace], for keyword arguments none of
    which is named [self]: [replace] gives new settings, and where the
    override holds a value that is neither [None] nor a dict at the end
    of a path of keys, the new settings hold that value at that path,
    whatever the base holds and at whatever depth. *)
Theorem override_wins keys base override a default :
  well_formed (CDict override) ->
  get override keys CNone = CLeaf a ->
  ~ In "self" (map fst override) ->
  exists merged, replace base override = Some merged /\
    get merged keys default = CLeaf a.
Proof.
  intros Hwf H Hnot.
  destruct (replace_cases base override) as [[Hin _] | [_ ->]]; [contradiction |].
  eexists. split; [reflexivity |]. now apply get_deep_merge_leaf.
Qed.

(** X15. An override, none of whose keys is [self], that holds [None]
    under a key hides what the base holds there: [replace] gives new
    settings, and [get] on them gives the default for every path that
    starts with that key. *)
Theorem override_None_hides base override k keys default :
  NoDup (map fst override) ->
  lookup override k = Some CNone ->
  ~ In "self" (map fst override) ->
  exists merged, replace base override = Some merged /\
    get merged (k :: keys) default = default.
Proof.
  intros Hnd L Hnot.
  destruct (replace_cases base override) as [[Hin _] | [_ ->]]; [contradiction |].
  eexists. split; [reflexivity |]. unfold get. simpl.
  rewrite (lookup_deep_merge override base k Hnd), L.
  now destruct (lookup base k) as [[| c | bd] |].
Qed.

Lemma deep_merge_fixed override : forall result,
  (forall k v, In (k, v) override ->
     lookup result k = Some v /\ merge_value (Some v) v = v) ->
  deep_merge result override = result.
Proof.
  unfold deep_merge.
  induction override as [| [k0 v0] rest IH]; intros result H; simpl;
    [reflexivity |].
  destruct (H k0 v0 (or_introl eq_refl)) as [L M].
  unfold merge_item at 2. simpl. rewrite L, M, (store_same _ _ _ L).
  apply IH. intros k v Hin. apply H. now right.
Qed.

Lemma merge_value_self v : well_formed v -> merge_value (Some v) v = v.
Proof.
  induction v as [| a | d IH] using cfg_induction; intros Hwf; try reflexivity.
  rewrite merge_value_dicts. f_equal.
  apply well_formed_items in Hwf. destruct Hwf as [Hnd Hall].
  apply deep_merge_fixed. intros k v Hin. split.
  - now apply In_lookup.
  - apply (IH k v Hin). now apply (Hall k).
Qed.

Lemma store_absent d k v : lookup d k = None -> store d k v = d ++ [(k, v)].
Proof.
  induction d as [| [k' v'] d IH]; simpl; [reflexivity |].
  destruct (String.eqb_spec k' k); [discriminate |].
  intros H. now rewrite IH.
Qed.

Lemma lookup_app_absent d d' k :
  lookup d k = None -> lookup (d ++ d') k = lookup d' k.
Proof.
  induction d as [| [k' v'] d IH]; simpl; [reflexivity |].
  destruct (String.eqb_spec k' k); [discriminate | exact IH].
Qed.

Lemma deep_merge_disjoint override : forall base,
  NoDup (map fst override) ->
  (forall k, In k (map fst override) -> lookup base k = None) ->
  deep_merge base override = base ++ override.
Proof.
  unfold deep_merge.
  induction override as [| [k v] rest IH]; intros base Hnd Hdis; simpl.
  - now rewrite app_nil_r.
  - inversion Hnd as [| ? ? Hnotin Hnd']; subst.
    pose proof (Hdis k (or_introl eq_refl)) as L.
    unfold merge_item at 2. simpl. rewrite L.
    replace (merge_value None v) with v by now destruct v.
    rewrite (store_absent _ _ _ L), IH; auto.
    + now rewrite <- app_assoc.
    + intros k' Hk'. rewrite lookup_app_absent by (apply Hdis; now right).
      simpl. destruct (String.eqb_spec k k') as [-> | Hne];
        [contradiction | reflexivity].
Qed.

(** X16. Merging settings into themselves changes nothing, at any
    depth, and merging an override into empty settings gives the
    override. *)
Theorem deep_merge_self_and_empty d :
  well_formed (CDict d) ->
  deep_merge d d = d /\ deep_merge [] d = d.
Proof.
  intros Hwf. split.
  - pose proof (merge_value_self _ Hwf) as H.
    rewrite merge_value_dicts in H. now injection H.
  - apply well_formed_items in Hwf. destruct Hwf as [Hnd _].
    now apply deep_merge_disjoint.
Qed.

End SettingsFacts.

(** * Readers and migrations *)

Section StoreFacts.

Import Dashboard Migrator.

(** ** The latest runs *)

Lemma insert_desc_perm r (l : table) : Permutation (r :: l) (insert_desc r l).
Proof.
  induction l as [| r' l IH]; simpl; [reflexivity |].
  destruct (triggered_at r' <=? triggered_at r)%Z; [reflexivity |].
  rewrite perm_swap. now constructor.
Qed.

Lemma order_by_perm (t : table) : Permutation t (order_by_triggered_at_desc t).
Proof.
  induction t as [| r t IH]; simpl; [constructor |].
  rewrite <- insert_desc_perm. now constructor.
Qed.

Lemma insert_desc_sorted r (l : table) :
  StronglySorted later_first l -> StronglySorted later_first (insert_desc r l).
Proof.
  induction 1 as [| r' l Hl IH Hr']; simpl.
  - repeat constructor.
  - destruct (triggered_at r' <=? triggered_at r)%Z eqn:E.
    + apply Z.leb_le in E. constructor; [now constructor |].
      constructor; [exact E |]. eapply Forall_impl; [| exact Hr'].
      unfold later_first. intros x Hx. lia.
    + apply Z.leb_gt in E. constructor; [assumption |].
      eapply Permutation_Forall; [apply insert_desc_perm |].
      constructor; [unfold later_first; lia | assumption].
Qed.

Lemma order_by_sorted (t : table) :
  StronglySorted later_first (order_by_triggered_at_desc t).
Proof.
  induction t as [| r t IH]; simpl; [constructor |].
  now apply insert_desc_sorted.
Qed.

Lemma sorted_firstn_skipn (l : table) : forall n,
  StronglySorted later_first l ->
  forall r r', In r (firstn n l) -> In r' (skipn n l) -> later_first r r'.
Proof.
  induction l as [| a l IH]; intros [| n] Hs r r' Hr Hr'; simpl in *;
    try contradiction.
  inversion Hs as [| ? ? Hs' Ha]; subst. destruct Hr as [<- | Hr].
  - rewrite Forall_forall in Ha. apply Ha.
    rewrite <- (firstn_skipn n l). apply in_or_app. now right.
  - eapply IH; eassumption.
Qed.


(** X17. For a limit that fits a 64-bit integer,
    [fetch_latest_task_runs] gives rows of the table, the latest first:
    as many as the limit allows (all of them for a negative limit), in
    descending order of [triggered_at], and no row it leaves out was
    triggered later than a row it gives.  For any other limit it raises
    [OverflowError]. *)
Theorem fetch_latest_task_runs_latest (limit : Z) (t : table) :
  (- 2 ^ 63 <= limit < 2 ^ 63)%Z ->
  exists result,
    fetch_latest_task_runs limit t = Some result /\
    StronglySorted later_first result /\
    List.length result
    = (if (limit <? 0)%Z then List.length t
       else Nat.min (Z.to_nat limit) (List.length t)) /\
    (exists left_out,
       Permutation t (result ++ left_out) /\
       forall r r', In r result -> In r' left_out -> later_first r r') /\
    forall other, ~ (- 2 ^ 63 <= other < 2 ^ 63)%Z ->
      fetch_latest_task_runs other t = None.
Proof.
  intros Hrange. unfold fetch_latest_task_runs, bind_integer.
  assert (Hin : ((- 2 ^ 63 <=? limit) && (limit <? 2 ^ 63))%Z = true).
  { apply andb_true_iff. split; [apply Z.leb_le | apply Z.ltb_lt]; lia. }
  rewrite Hin. eexists. split; [reflexivity |]. unfold limit_rows.
  pose proof (order_by_sorted t) as Hs. pose proof (order_by_perm t) as Hp.
  assert (Hout : forall other, ~ (- 2 ^ 63 <= other < 2 ^ 63)%Z ->
            (if ((- 2 ^ 63 <=? other) && (other <? 2 ^ 63))%Z
             then Some other else None) = None).
  { intros other Hno.
    destruct ((- 2 ^ 63 <=? other) && (other <? 2 ^ 63))%Z eqn:B; [| reflexivity].
    apply andb_true_iff in B. destruct B as [B1 B2].
    apply Z.leb_le in B1. apply Z.ltb_lt in B2. exfalso. apply Hno. lia. }
  destruct (limit <? 0)%Z.
  - split; [assumption |]. split; [symmetry; now apply Permutation_length |].
    split; [| intros other Hno; now rewrite (Hout other Hno)].
    exists []. rewrite app_nil_r. split; [assumption | intros r r' _ []].
  - split; [| split; [| split]].
    + rewrite <- (firstn_skipn (Z.to_nat limit)) in Hs.
      revert Hs. generalize (firstn (Z.to_nat limit) (order_by_triggered_at_desc t)).
      intros l. induction l as [| a l IH]; simpl; intros H; [constructor |].
      inversion H as [| ? ? H' Ha]; subst. constructor; [now apply IH |].
      apply Forall_app in Ha. tauto.
    + rewrite length_firstn. f_equal. symmetry. now apply Permutation_length.
    + exists (skipn (Z.to_nat limit) (order_by_triggered_at_desc t)).
      rewrite firstn_skipn. split; [assumption |].
      now apply sorted_firstn_skipn.
    + intros other Hno. now rewrite (Hout other Hno).
Qed.


(** ** Migrations *)

Section Upgrade.

Context {S : Type}.
Implicit Types (files ms : list (migration S)) (db : Db S) (m : migration S).


Lemma mem_In (k : string) (l : list string) : mem k l = true <-> In k l.
Proof. apply contains_In. Qed.

Lemma mem_false (k : string) (l : list string) : mem k l = false <-> ~ In k l.
Proof.
  rewrite <- mem_In. destruct (mem k l); split; intros; congruence.
Qed.

Lemma upgrade_loop_pending files : forall applied db,
  upgrade_loop applied files db = upgrade_loop [] (pending applied files) db.
Proof.
  induction files as [| m rest IH]; intros applied db; simpl; [reflexivity |].
  destruct (mem (mig_id m) applied); simpl; [apply IH |].
  destruct (run m (data db)) as [s [msg |]]; [reflexivity |].
  destruct (mem (mig_id m) (map fst (schema_migrations db))); [reflexivity |].
  apply IH.
Qed.

Lemma upgrade_loop_distinct ms : forall db,
  NoDup (map mig_id ms) ->
  (forall m, In m ms -> ~ In (mig_id m) (map fst (schema_migrations db))) ->
  upgrade_loop [] ms db
  = (mkDb (schema_migrations db ++ map entry (completed ms (data db)))
          (fst (run_all ms (data db))),
     option_map ScriptError (snd (run_all ms (data db)))).
Proof.
  induction ms as [| m ms IH]; intros db Hnd Hnew; simpl.
  - rewrite app_nil_r. now destruct db.
  - inversion Hnd as [| ? ? Hnotin Hnd']; subst.
    destruct (run m (data db)) as [s [msg |]] eqn:R; simpl.
    + now rewrite app_nil_r.
    + pose proof (Hnew m (or_introl eq_refl)) as Hm.
      apply mem_false in Hm. rewrite Hm.
      assert (Hloop := IH (mkDb (schema_migrations db ++ [entry m]) s) Hnd').
      change (schema_migrations db ++ [(mig_id m, mig_name m)])
        with (schema_migrations db ++ [entry m]).
      rewrite Hloop.
      * simpl. now rewrite <- app_assoc.
      * intros m' Hin. simpl. rewrite map_app, in_app_iff. simpl.
        intros [H | [H | []]].
        -- now apply (Hnew m' (or_intror Hin)).
        -- apply Hnotin. rewrite H. now apply in_map.
Qed.

(** The migrations that ran to their end are all of them when none
    raised, and otherwise those before the one that raised. *)
Lemma completed_spec ms : forall s : S,
  match snd (run_all ms s) with
  | None => completed ms s = ms
  | Some message =>
      exists done m rest s0,
        ms = done ++ m :: rest /\ completed ms s = done /\
        run_all done s = (s0, None) /\
        run m s0 = (fst (run_all ms s), Some message)
  end.
Proof.
  induction ms as [| m ms IH]; intros s; simpl; [reflexivity |].
  destruct (run m s) as [s' [msg |]] eqn:R; simpl.
  - exists [], m, ms, s. auto.
  - specialize (IH s'). destruct (snd (run_all ms s')) as [msg |].
    + destruct IH as (done & m' & rest & s0 & -> & Hc & Hr & Hm).
      exists (m :: done), m', rest, s0. simpl. rewrite R, Hc. auto.
    + now rewrite IH.
Qed.

Lemma upgrade_loop_applied files : forall applied db,
  (forall m, In m files -> In (mig_id m) applied) ->
  upgrade_loop applied files db = (db, None).
Proof.
  induction files as [| m rest IH]; intros applied db H; simpl; [reflexivity |].
  rewrite (proj2 (mem_In _ _) (H m (or_introl eq_refl))).
  apply IH. intros m' Hm'. apply H. now right.
Qed.

Lemma upgrade_loop_records files : forall applied db db',
  upgrade_loop applied files db = (db', None) ->
  incl applied (map fst (schema_migrations db)) ->
  incl (map fst (schema_migrations db)) (map fst (schema_migrations db')) /\
  forall m, In m files -> In (mig_id m) (map fst (schema_migrations db')).
Proof.
  induction files as [| m rest IH]; intros applied db db' H Hincl; simpl in H.
  - injection H as <-. split; [apply incl_refl | intros m []].
  - destruct (mem (mig_id m) applied) eqn:A.
    + destruct (IH _ _ _ H Hincl) as [Hi Hall]. split; [assumption |].
      intros m' [<- | Hm']; [| now apply Hall].
      apply Hi, Hincl. now apply mem_In.
    + destruct (run m (data db)) as [s [msg |]]; [discriminate |].
      destruct (mem (mig_id m) (map fst (schema_migrations db))); [discriminate |].
      assert (Hstep : incl (map fst (schema_migrations db))
                        (map fst (schema_migrations db ++ [(mig_id m, mig_name m)]))).
      { rewrite map_app. now apply incl_appl, incl_refl. }
      destruct (IH _ _ _ H) as [Hi Hall].
      { simpl. eapply incl_tran; eassumption. }
      simpl in Hi. split; [eapply incl_tran; eassumption |].
      intros m' [<- | Hm']; [| now apply Hall].
      apply Hi. rewrite map_app. apply in_or_app. right. now left.
Qed.

(** X18. [upgrade] can be run again: after an [upgrade] that ended
    without an exception, every file of the directory is recorded in
    [schema_migrations], and a second [upgrade] over the same files runs
    nothing and leaves the database as it is. *)
Theorem upgrade_twice files db db' :
  upgrade files db = (db', None) ->
  (forall m, In m files -> In (mig_id m) (map fst (schema_migrations db'))) /\
  upgrade files db' = (db', None).
Proof.
  unfold upgrade. intros H.
  destruct (upgrade_loop_records _ _ _ _ H (incl_refl _)) as [_ Hall].
  split; [assumption | now apply upgrade_loop_applied].
Qed.

(** X19. What [upgrade] does when the files that are not applied have
    pairwise distinct stems: it runs them in the order of the files, each
    on what the one before left, and records, after the rows that were
    there, each one that ran to its end.  When none raises, all of them
    are recorded.  The first exception of a migration ends the loop: the
    migrations before that one are recorded, that one and those after it
    are not, and what that one did before it raised stays.  The applied
    ones are not run. *)
Theorem upgrade_runs_pending files db :
  let todo := pending (map fst (schema_migrations db)) files in
  NoDup (map mig_id todo) ->
  upgrade files db
  = (mkDb (schema_migrations db ++ map entry (completed todo (data db)))
          (fst (run_all todo (data db))),
     option_map ScriptError (snd (run_all todo (data db)))) /\
  match snd (run_all todo (data db)) with
  | None => completed todo (data db) = todo
  | Some message =>
      exists done m rest s0,
        todo = done ++ m :: rest /\ completed todo (data db) = done /\
        run_all done (data db) = (s0, None) /\
        run m s0 = (fst (run_all todo (data db)), Some message)
  end.
Proof.
  intros todo Hnd. split; [| apply completed_spec].
  unfold upgrade. rewrite upgrade_loop_pending. fold todo.
  apply upgrade_loop_distinct; [assumption |].
  intros m Hm. unfold todo, pending in Hm. apply filter_In in Hm.
  destruct Hm as [_ Hm]. apply negb_true_iff in Hm. now apply mem_false.
Qed.

(** X20. Two files with one stem, say a [.sql] and a [.py] file: the set
    of applied migrations is read once, before the loop, so the second
    file is run as well, and only then does the insertion into
    [schema_migrations] fail on the primary key: [upgrade] ends in
    [IntegrityError], with what the second file did done. *)
Theorem upgrade_same_stem_twice files before m1 between m2 after db s :
  pending (map fst (schema_migrations db)) files
    = before ++ m1 :: between ++ m2 :: after ->
  mig_id m2 = mig_id m1 ->
  NoDup (map mig_id (before ++ m1 :: between)) ->
  run_all (before ++ m1 :: between ++ [m2]) (data db) = (s, None) ->
  upgrade files db
  = (mkDb (schema_migrations db ++ map entry (before ++ m1 :: between)) s,
     Some IntegrityError).
Proof.
  intros Hp Hid Hnd Hrun. unfold upgrade. rewrite upgrade_loop_pending, Hp.
  assert (Hnew : forall m, In m (before ++ m1 :: between ++ m2 :: after) ->
                   ~ In (mig_id m) (map fst (schema_migrations db))).
  { intros m Hm. rewrite <- Hp in Hm. unfold pending in Hm.
    apply filter_In in Hm. destruct Hm as [_ Hm].
    apply negb_true_iff in Hm. now apply mem_false. }
  clear Hp. set (first := before ++ m1 :: between) in *.
  replace (before ++ m1 :: between ++ m2 :: after) with (first ++ m2 :: after)
    in * by (unfold first; now rewrite <- app_assoc).
  replace (before ++ m1 :: between ++ [m2]) with (first ++ [m2])
    in Hrun by (unfold first; now rewrite <- app_assoc).
  assert (Hin : In (mig_id m2) (map mig_id first)).
  { rewrite Hid. unfold first. rewrite map_app. apply in_or_app. right. now left. }
  clearbody first. clear Hid m1 before between.
  revert db s Hnd Hrun Hnew Hin.
  assert (Hgen : forall ms db s,
            NoDup (map mig_id ms) ->
            run_all (ms ++ [m2]) (data db) = (s, None) ->
            (forall m, In m ms ->
               ~ In (mig_id m) (map fst (schema_migrations db))) ->
            (In (mig_id m2) (map mig_id ms) \/
             In (mig_id m2) (map fst (schema_migrations db))) ->
            upgrade_loop [] (ms ++ m2 :: after) db
            = (mkDb (schema_migrations db ++ map entry ms) s,
               Some IntegrityError)).
  { induction ms as [| m ms IH]; intros db s Hnd Hrun Hnew Hin; simpl in *.
    - destruct Hin as [[] | Hin].
      destruct (run m2 (data db)) as [s' [msg |]]; [discriminate |].
      injection Hrun as ->. apply mem_In in Hin. rewrite Hin.
      now rewrite app_nil_r.
    - inversion Hnd as [| ? ? Hnotin Hnd']; subst.
      destruct (run m (data db)) as [s' [msg |]] eqn:R; [discriminate |].
      pose proof (Hnew m (or_introl eq_refl)) as Hm.
      apply mem_false in Hm. rewrite Hm.
      rewrite (IH (mkDb (schema_migrations db ++ [(mig_id m, mig_name m)]) s')
                  s Hnd' Hrun).
      + simpl. unfold entry at 2. now rewrite <- app_assoc.
      + intros m' Hm'. simpl. rewrite map_app, in_app_iff. simpl.
        intros [H | [H | []]].
        * now apply (Hnew m' (or_intror Hm')).
        * apply Hnotin. rewrite H. now apply in_map.
      + simpl. rewrite map_app, in_app_iff. simpl.
        destruct Hin as [[H | H] | H]; auto. }
  intros db s Hnd Hrun Hnew Hin.
  apply (Hgen first db s); auto.
  intros m Hm. apply Hnew. apply in_or_app. now left.
Qed.

End Upgrade.

End StoreFacts.

(** * The additional properties on examples *)

Import Examples.


Lemma run_without_set_runs_whole_tree_witness :
  well_ranked scenario_C depth /\ depth "root" < 3 /\
  no_set_yet None world0 /\
  exists out w' xs,
    run_task 3 scenario_C "root" None world0 = Some (out, w') /\
    log w' = log world0 ++ events_of xs /\
    map task_name (rows_since world0 w') = map x_name xs /\
    prefix_of (map x_name xs) (expansion 3 scenario_C "root") /\
    (forall rid, out = Returned rid ->
       map x_name xs = expansion 3 scenario_C "root" /\
       forall other,
         body_calls other (events_of xs)
         = count_occ string_dec (expansion 3 scenario_C "root") other).
Proof.
  assert (H1 : well_ranked scenario_C depth)
    by (apply check_ranked_sound; reflexivity).
  assert (H2 : depth "root" < 3) by (vm_compute; lia).
  assert (H3 : no_set_yet None world0) by exact I.
  exact (conj H1 (conj H2 (conj H3
           (run_without_set_runs_whole_tree scenario_C depth 3 "root" None
              world0 H1 H2 H3)))).
Defined.

(** The tree of "root" in scenario C holds "shared" twice. *)
Example expansion_scenario_C :
  expansion 3 scenario_C "root" = ["shared"; "a"; "shared"; "b"; "root"].
Proof. reflexivity. Qed.

Lemma run_with_set_runs_once_witness :
  well_ranked scenario_C depth /\ depth "root" < 3 /\
  truthy (deref (sets world_seeded) 0) = true /\
  exists out w' xs,
    run_task 3 scenario_C "root" (Some 0) world_seeded = Some (out, w') /\
    log w' = log world_seeded ++ events_of xs /\
    map task_name (rows_since world_seeded w') = map x_name xs /\
    NoDup (map x_name xs) /\
    (forall x, In x xs -> ~ In (x_name x) (deref (sets world_seeded) 0)) /\
    deref (sets w') 0
    = deref (sets world_seeded) 0 ++ map x_name (filter succeeded xs).
Proof.
  assert (H1 : well_ranked scenario_C depth)
    by (apply check_ranked_sound; reflexivity).
  assert (H2 : depth "root" < 3) by (vm_compute; lia).
  assert (H3 : truthy (deref (sets world_seeded) 0) = true) by reflexivity.
  exact (conj H1 (conj H2 (conj H3
           (run_with_set_runs_once scenario_C depth 3 "root" 0 world_seeded
              H1 H2 H3)))).
Defined.

(** With a set that is not empty, "shared" is executed once. *)
Example scenario_C_with_seed :
  exists rid w',
    run_task 3 scenario_C "root" (Some 0) world_seeded = Some (Returned rid, w') /\
    map task_name (task_runs w') = ["shared"; "a"; "b"; "root"] /\
    sets w' = [["seed"; "shared"; "a"; "b"; "root"]].
Proof.
  do 2 eexists. split; [vm_compute; reflexivity |]. split; reflexivity.
Qed.

Lemma run_calls_registered_bodies_witness :
  well_ranked scenario_B depth /\ depth "dependent" < 2 /\
  exists out w' xs,
    run_task 2 scenario_B "dependent" None world0 = Some (out, w') /\
    log w' = log world0 ++ events_of xs /\
    threaded scenario_B (ext world0) xs (ext w').
Proof.
  assert (H1 : well_ranked scenario_B depth)
    by (apply check_ranked_sound; reflexivity).
  assert (H2 : depth "dependent" < 2) by (vm_compute; lia).
  exact (conj H1 (conj H2
           (run_calls_registered_bodies scenario_B depth 2 "dependent" None
              world0 H1 H2))).
Defined.

Lemma run_task_outcomes_witness :
  well_ranked scenario_B depth /\ depth "dependent" < 2 /\
  exists out w' xs,
    run_task 2 scenario_B "dependent" None world0 = Some (out, w') /\
    log w' = log world0 ++ events_of xs /\
    match out with
    | Returned rid =>
        (xs = [] /\ rid = "") \/
        (exists before x, xs = before ++ [x] /\ x_name x = "dependent" /\
           rid = x_run_id x /\ In (execution_row x) (task_runs w') /\
           status (execution_row x) = SUCCESS)
    | Raised e =>
        (exists missing,
           (missing = "dependent" \/ reaches scenario_B "dependent" missing) /\
           dict_get scenario_B missing = None /\
           e = KeyError (unknown_message missing)) \/
        (exists before x, xs = before ++ [x] /\
           In (execution_row x) (task_runs w') /\
           ((status (execution_row x) = FAILED /\
             e = RuntimeError (failed_message (x_name x) (x_run_id x))) \/
            (status (execution_row x) = SUCCESS /\
             exists exc, e = Uncaught exc /\ is_Exception exc = false)))
    end.
Proof.
  assert (H1 : well_ranked scenario_B depth)
    by (apply check_ranked_sound; reflexivity).
  assert (H2 : depth "dependent" < 2) by (vm_compute; lia).
  exact (conj H1 (conj H2
           (run_task_outcomes scenario_B depth 2 "dependent" None world0
              H1 H2))).
Defined.

Lemma run_appends_records_witness :
  (forall i j, hex i = hex j -> i = j) /\
  ids_fresh world0 /\
  well_ranked scenario_C depth /\ depth "root" < 3 /\
  exists out w' xs,
    run_task 3 scenario_C "root" None world0 = Some (out, w') /\
    log w' = log world0 ++ events_of xs /\
    task_runs w' = task_runs world0 ++ map execution_row xs /\
    ids_fresh w'.
Proof.
  assert (H0 : forall i j, hex i = hex j -> i = j) by exact hex_injective.
  assert (H1 : ids_fresh world0) by (intros k _ []).
  assert (H2 : well_ranked scenario_C depth)
    by (apply check_ranked_sound; reflexivity).
  assert (H3 : depth "root" < 3) by (vm_compute; lia).
  exact (conj H0 (conj H1 (conj H2 (conj H3
           (run_appends_records scenario_C depth 3 "root" None world0
              H0 H1 H2 H3))))).
Defined.

Lemma cli_run_task_prints_last_record_witness :
  well_ranked scenario_A depth /\ depth "base" < 1 /\
  exists out exc w',
    cli_run_task 1 scenario_A "base" world0 = Some (out, exc, w') /\
    match exc with
    | Some e =>
        out = [] /\ run_task 1 scenario_A "base" None world0 = Some (Raised e, w')
    | None =>
        exists t row,
          out = [JsonObject [("task", "base"); ("run_id", run_id row)]] /\
          task_runs w' = t ++ [row] /\
          task_name row = "base" /\ status row = SUCCESS /\
          (exists done, completed_at row = Some done)
    end.
Proof.
  assert (H1 : well_ranked scenario_A depth)
    by (apply check_ranked_sound; reflexivity).
  assert (H2 : depth "base" < 1) by (vm_compute; lia).
  exact (conj H1 (conj H2
           (cli_run_task_prints_last_record scenario_A depth 1 "base" world0
              H1 H2))).
Defined.

Lemma deep_merge_lookup_witness :
  NoDup (map fst override_settings) /\
  Settings.lookup (Settings.deep_merge base_settings override_settings) "paths"
  = match Settings.lookup override_settings "paths" with
    | None => Settings.lookup base_settings "paths"
    | Some v =>
        match Settings.lookup base_settings "paths", v with
        | Some (Settings.CDict b), Settings.CDict o =>
            Some (Settings.CDict (Settings.deep_merge b o))
        | _, _ => Some v
        end
    end.
Proof.
  assert (H : NoDup (map fst override_settings))
    by (repeat constructor; simpl; intuition discriminate).
  exact (conj H (deep_merge_lookup override_settings base_settings "paths" H)).
Defined.

Lemma override_wins_witness :
  Settings.well_formed (Settings.CDict override_settings) /\
  Settings.get override_settings ["paths"; "db_path"] Settings.CNone
    = Settings.CLeaf "/tmp/nextgen.db" /\
  ~ In "self" (map fst override_settings) /\
  exists merged,
    Settings.replace base_settings override_settings = Some merged /\
    Settings.get merged ["paths"; "db_path"] (Settings.CLeaf "none")
    = Settings.CLeaf "/tmp/nextgen.db".
Proof.
  assert (H1 : Settings.well_formed (Settings.CDict override_settings)).
  { simpl. repeat split; repeat constructor; simpl; intuition discriminate. }
  assert (H2 : Settings.get override_settings ["paths"; "db_path"] Settings.CNone
               = Settings.CLeaf "/tmp/nextgen.db") by reflexivity.
  assert (H3 : ~ In "self" (map fst override_settings))
    by (simpl; intuition discriminate).
  exact (conj H1 (conj H2 (conj H3
           (override_wins ["paths"; "db_path"] base_settings override_settings
              "/tmp/nextgen.db" (Settings.CLeaf "none") H1 H2 H3)))).
Defined.

Lemma override_None_hides_witness :
  NoDup (map fst override_settings) /\
  Settings.lookup override_settings "profile" = Some Settings.CNone /\
  ~ In "self" (map fst override_settings) /\
  exists merged,
    Settings.replace base_settings override_settings = Some merged /\
    Settings.get merged ["profile"] (Settings.CLeaf "fallback")
    = Settings.CLeaf "fallback".
Proof.
  assert (H1 : NoDup (map fst override_settings))
    by (repeat constructor; simpl; intuition discriminate).
  assert (H2 : Settings.lookup override_settings "profile" = Some Settings.CNone)
    by reflexivity.
  assert (H3 : ~ In "self" (map fst override_settings))
    by (simpl; intuition discriminate).
  exact (conj H1 (conj H2 (conj H3
           (override_None_hides base_settings override_settings "profile" []
              (Settings.CLeaf "fallback") H1 H2 H3)))).
Defined.

(** A keyword argument named [self] never reaches [_deep_merge]. *)
Example replace_refuses_self :
  Settings.replace base_settings [("self", Settings.CLeaf "x")] = None.
Proof. reflexivity. Qed.

Lemma deep_merge_self_and_empty_witness :
  Settings.well_formed (Settings.CDict base_settings) /\
  Settings.deep_merge base_settings base_settings = base_settings /\
  Settings.deep_merge [] base_settings = base_settings.
Proof.
  assert (H : Settings.well_formed (Settings.CDict base_settings)).
  { simpl. repeat split; repeat constructor; simpl; intuition discriminate. }
  exact (conj H (deep_merge_self_and_empty base_settings H)).
Defined.

Lemma upgrade_twice_witness :
  Migrator.upgrade [m_init_sql; m_runs_sql] empty_db = (migrated_db, None) /\
  (forall m, In m [m_init_sql; m_runs_sql] ->
     In (Migrator.mig_id m) (map fst (Migrator.schema_migrations migrated_db))) /\
  Migrator.upgrade [m_init_sql; m_runs_sql] migrated_db = (migrated_db, None).
Proof.
  assert (H : Migrator.upgrade [m_init_sql; m_runs_sql] empty_db
              = (migrated_db, None)) by reflexivity.
  exact (conj H (upgrade_twice [m_init_sql; m_runs_sql] empty_db migrated_db H)).
Defined.

Lemma upgrade_runs_pending_witness :
  let files := [m_init_sql; m_broken_sql; m_later_sql] in
  let todo :=
    Migrator.pending (map fst (Migrator.schema_migrations empty_db)) files in
  NoDup (map Migrator.mig_id todo) /\
  Migrator.upgrade files empty_db
  = (Migrator.mkDb [("001_init", "001_init.sql")]
       ["001_init.sql"; "002_broken.sql, first statement"],
     Some (Migrator.ScriptError "near FORM: syntax error")) /\
  exists done m rest s0,
    todo = done ++ m :: rest /\
    Migrator.completed todo (Migrator.data empty_db) = done /\
    Migrator.run_all done (Migrator.data empty_db) = (s0, None) /\
    Migrator.run m s0
    = (["001_init.sql"; "002_broken.sql, first statement"],
       Some "near FORM: syntax error").
Proof.
  intros files todo.
  assert (H : NoDup (map Migrator.mig_id todo))
    by (repeat constructor; simpl; intuition discriminate).
  exact (conj H (upgrade_runs_pending files empty_db H)).
Defined.

Lemma upgrade_same_stem_twice_witness :
  let files := [m_init_sql; m_runs_sql; m_init_py] in
  let s := ["001_init.sql"; "002_runs.sql"; "001_init.py"] in
  Migrator.pending (map fst (Migrator.schema_migrations empty_db)) files
    = [] ++ m_init_sql :: [m_runs_sql] ++ m_init_py :: [] /\
  Migrator.mig_id m_init_py = Migrator.mig_id m_init_sql /\
  NoDup (map Migrator.mig_id ([] ++ m_init_sql :: [m_runs_sql])) /\
  Migrator.run_all ([] ++ m_init_sql :: [m_runs_sql] ++ [m_init_py])
    (Migrator.data empty_db) = (s, None) /\
  Migrator.upgrade files empty_db
  = (Migrator.mkDb
       (Migrator.schema_migrations empty_db
          ++ map Migrator.entry ([] ++ m_init_sql :: [m_runs_sql])) s,
     Some Migrator.IntegrityError).
Proof.
  intros files s.
  assert (H1 : Migrator.pending
                 (map fst (Migrator.schema_migrations empty_db)) files
               = [] ++ m_init_sql :: [m_runs_sql] ++ m_init_py :: [])
    by reflexivity.
  assert (H2 : Migrator.mig_id m_init_py = Migrator.mig_id m_init_sql)
    by reflexivity.
  assert (H3 : NoDup (map Migrator.mig_id ([] ++ m_init_sql :: [m_runs_sql])))
    by (repeat constructor; simpl; intuition discriminate).
  assert (H4 : Migrator.run_all ([] ++ m_init_sql :: [m_runs_sql] ++ [m_init_py])
                 (Migrator.data empty_db) = (s, None)) by reflexivity.
  exact (conj H1 (conj H2 (conj H3 (conj H4
           (upgrade_same_stem_twice files [] m_init_sql [m_runs_sql] m_init_py
              [] empty_db s H1 H2 H3 H4))))).
Defined.

(** ** The order of a run and the failure of a dependency, on the scenarios *)

Lemma dependencies_run_first_witness :
  well_ranked scenario_C depth /\
  depth "root" < 3 /\
  dict_get scenario_C "root" = Some root_task /\
  exists out w' xs,
    run_task 3 scenario_C "root" None world0 = Some (out, w') /\
    log w' = log world0 ++ events_of xs /\
    map task_name (rows_since world0 w') = map x_name xs /\
    ( (exists segs own,
         xs = List.concat segs ++ [own] /\
         segments [] ["a"; "b"] segs /\
         x_name own = "root" /\ ~ In "root" (map x_name (List.concat segs)) /\
         out = execution_outcome own)
      \/
      (exists done dep rest segs last e,
         ["a"; "b"] = done ++ dep :: rest /\
         xs = List.concat segs ++ last /\
         segments [] done segs /\
         call_trace scenario_C dep last (Raised e) /\
         ~ In "root" (map x_name xs) /\
         out = Raised e) ).
Proof.
  assert (H1 : well_ranked scenario_C depth)
    by (apply check_ranked_sound; reflexivity).
  assert (H2 : depth "root" < 3) by (vm_compute; lia).
  assert (H3 : dict_get scenario_C "root" = Some root_task) by reflexivity.
  exact (conj H1 (conj H2 (conj H3
           (dependencies_run_first scenario_C depth 3 "root" None world0
              root_task H1 H2 H3)))).
Defined.


(** ** Where two more claims as written stop *)



(** ** The latest runs of a table *)

Lemma fetch_latest_task_runs_latest_witness :
  let t := [ mkRow "0" "base" SUCCESS 0 (Some 1500000%Z) None None;
             mkRow "f" "base" FAILED 3000000 (Some 4500000%Z) None None ] in
  (- 2 ^ 63 <= 1 < 2 ^ 63)%Z /\
  exists result,
    Dashboard.fetch_latest_task_runs 1 t = Some result /\
    StronglySorted Dashboard.later_first result /\
    List.length result = 1 /\
    (exists left_out,
       Permutation t (result ++ left_out) /\
       forall r r', In r result -> In r' left_out -> Dashboard.later_first r r') /\
    forall other, ~ (- 2 ^ 63 <= other < 2 ^ 63)%Z ->
      Dashboard.fetch_latest_task_runs other t = None.
Proof.
  intros t.
  assert (H : (- 2 ^ 63 <= 1 < 2 ^ 63)%Z) by (split; [discriminate | reflexivity]).
  exact (conj H (fetch_latest_task_runs_latest 1 t H)).
Defined.
